(** * Counting distinct IPv6 addresses by external merge sort

    A shallow embedding of [task_1/main.py]: sorted runs of 16-byte keys are
    written to a temporary directory, reduced by k-way merges of bounded
    fan-in, and counted by a last k-way merge that compares every record
    with the one before it.

    What is modelled, and how:
    - a Python [bytes] value is a [list byte]; [<] on [bytes] and on tuples
      is the lexicographic order ([lexico]);
    - the file system is a finite map from path to content; the model has no
      operating-system faults (full disk, permissions): opening a file for
      reading fails exactly when the path is absent, writing never fails;
    - a loop that the source may run forever ([reduce_runs]) takes fuel and
      answers [Timeout] when it runs out;
    - [socket.inet_pton], [heapq], [tempfile.mkdtemp] and [argparse]
      belong to the library of Python: the encoder is a parameter of the
      development, the heap is any implementation of the interface
      [Heapq], the directory that [mkdtemp] returns is an argument of the
      orchestrator, and what [parse_args] returns is an argument of
      [main]. *)

From Stdlib Require Import Ascii String Strings.Byte DecimalString DecimalNat.
From stdpp Require Import base gmap strings list sorting lexico.

Abbreviation bytes := (list byte).

(** ** Order on Python values *)

Global Instance byte_eq_dec : EqDecision byte := Byte.byte_eq_dec.
Global Instance byte_countable : Countable byte :=
  inj_countable Byte.to_N Byte.of_N Byte.of_to_N.

Global Instance byte_lexico : Lexico byte :=
  λ a b, (Byte.to_N a < Byte.to_N b)%N.

Lemma byte_to_N_inj a b : Byte.to_N a = Byte.to_N b → a = b.
Proof.
  intros E. assert (Some a = Some b) as [=]; [|done].
  by rewrite <-!Byte.of_to_N, E.
Qed.

Global Instance byte_lexico_po : StrictOrder (@lexico byte _).
Proof.
  unfold lexico, byte_lexico. split.
  - intros a. red. lia.
  - intros a b c. lia.
Qed.

Global Instance byte_lexico_trichotomy : TrichotomyT (@lexico byte _).
Proof.
  red. refine (λ a b,
    match N.compare (Byte.to_N a) (Byte.to_N b) as c
      return N.compare (Byte.to_N a) (Byte.to_N b) = c → _ with
    | Lt => λ E, inleft (left (proj1 (N.compare_lt_iff _ _) E))
    | Eq => λ E, inleft (right (byte_to_N_inj _ _ (N.compare_eq _ _ E)))
    | Gt => λ E, inright (proj1 (N.compare_gt_iff _ _) E)
    end eq_refl).
Defined.

(** [lexle x y] is Python's [not (y < x)], that is [x <= y], for a type
    whose [<] is a strict total order. *)
Section lexle.
Context `{Lexico A, !StrictOrder (@lexico A _), !TrichotomyT (@lexico A _)}.

Definition lexle (x y : A) : Prop := ¬ lexico y x.

Global Instance lexle_dec : RelDecision lexle.
Proof. intros x y. unfold lexle. apply _. Defined.

Lemma lexle_alt x y : lexle x y ↔ x = y ∨ lexico x y.
Proof.
  unfold lexle. destruct (trichotomy lexico x y) as [Hlt|[->|Hgt]].
  - split; [auto|]. intros _ Hgt. exact (strict_anti_symm _ _ Hlt Hgt).
  - split; [auto|]. intros _. apply (irreflexivity lexico y).
  - split; [done|]. intros [->|Hlt] _.
    + exact (irreflexivity lexico y Hgt).
    + exact (strict_anti_symm _ _ Hlt Hgt).
Qed.

Global Instance lexle_refl : Reflexive lexle.
Proof. intros x. apply lexle_alt. by left. Qed.

Global Instance lexle_trans : Transitive lexle.
Proof.
  intros x y z. rewrite !lexle_alt. intros [->|?] [->|?]; auto.
  right. by trans y.
Qed.

Global Instance lexle_total : Total lexle.
Proof.
  intros x y. rewrite !lexle_alt.
  destruct (trichotomy lexico x y) as [?|[->|?]]; auto.
Qed.

Global Instance lexle_antisymm : AntiSymm (=) lexle.
Proof.
  intros x y. rewrite !lexle_alt. intros [->|Hlt] [?|Hgt]; auto.
  destruct (strict_anti_symm _ _ Hlt Hgt).
Qed.
End lexle.

(** ** Exceptions, outcomes and the world *)

Inductive exn :=
  | FileNotFoundError (path : string)
  | UnicodeDecodeError
  | OSError (msg : string)
  | ValueError (msg : string)
  | IndexError.

Inductive outcome (A : Type) :=
  | Ok (a : A)
  | Raise (e : exn)
  | Timeout.
Arguments Ok {A} a.
Arguments Raise {A} e.
Arguments Timeout {A}.

(** [files] is the disk, [opened] lists every path handed to [open], the
    latest first, and [stdout] the printed lines, the latest first. *)
Record world := World {
  files : gmap string bytes;
  opened : list string;
  stdout : list string
}.

Definition M (A : Type) : Type := world → outcome A * world.

Definition ret {A} (a : A) : M A := λ w, (Ok a, w).
Definition raise {A} (e : exn) : M A := λ w, (Raise e, w).
Definition timeout {A} : M A := λ w, (Timeout, w).
Definition bind {A B} (m : M A) (k : A → M B) : M B := λ w,
  match m w with
  | (Ok a, w') => k a w'
  | (Raise e, w') => (Raise e, w')
  | (Timeout, w') => (Timeout, w')
  end.

Notation "x <- m ;; k" := (bind m (λ x, k))
  (at level 100, m at next level, right associativity).
Notation "m ;; k" := (bind m (λ _, k))
  (at level 100, right associativity).

(** [try: body finally: fin]. A body that never returns never reaches the
    [finally] clause. *)
Definition try_finally {A} (body : M A) (fin : M unit) : M A := λ w,
  match body w with
  | (Timeout, w') => (Timeout, w')
  | (r, w') =>
      match fin w' with
      | (Ok _, w'') => (r, w'')
      | (Raise e, w'') => (Raise e, w'')
      | (Timeout, w'') => (Timeout, w'')
      end
  end.

(** [try: m except FileNotFoundError: pass] *)
Definition except_FileNotFoundError_pass (m : M unit) : M unit := λ w,
  match m w with
  | (Raise (FileNotFoundError _), w') => (Ok tt, w')
  | r => r
  end.

(** [open(p, "rb")] followed by the reads: the handle is the content still
    to be read, as it was when the file was opened. The pipeline never
    writes a file that it holds open for reading. *)
Definition open_rb (p : string) : M bytes := λ w,
  match files w !! p with
  | Some c => (Ok c, World (files w) (p :: opened w) (stdout w))
  | None => (Raise (FileNotFoundError p), w)
  end.

(** [with open(p, "wb") as f: f.write(...)]: the file is created or
    truncated and holds what was written when the block ends. *)
Definition write_file (p : string) (c : bytes) : M unit := λ w,
  (Ok tt, World (<[p := c]> (files w)) (p :: opened w) (stdout w)).

Definition os_remove (p : string) : M unit := λ w,
  match files w !! p with
  | Some _ => (Ok tt, World (delete p (files w)) (opened w) (stdout w))
  | None => (Raise (FileNotFoundError p), w)
  end.

Definition print (s : string) : M unit := λ w,
  (Ok tt, World (files w) (opened w) (s :: stdout w)).

(** ** Paths *)

Fixpoint endswith_sep (a : string) : bool :=
  match a with
  | "" => false
  | String c "" => bool_decide (c = "/"%char)
  | String _ a' => endswith_sep a'
  end.

Definition startswith_sep (b : string) : bool :=
  match b with
  | String c _ => bool_decide (c = "/"%char)
  | "" => false
  end.

(** [os.path.join(a, b)] of [posixpath]. *)
Definition path_join (a b : string) : string :=
  if startswith_sep b then b
  else if bool_decide (a = "") || endswith_sep a then a +:+ b
  else a +:+ "/" +:+ b.

(** [p] lies below the directory [d]. *)
Definition in_dir (d p : string) : bool := String.prefix (path_join d "") p.

(** [shutil.rmtree(d, ignore_errors=True)] *)
Definition rmtree (d : string) : M unit := λ w,
  (Ok tt, World (filter (λ kv, in_dir d kv.1 = false) (files w))
                (opened w) (stdout w)).

(** [f"{n:0{width}d}"] for [n >= 0]: decimal digits, padded with zeros on
    the left up to [width]. *)
Fixpoint pad_zeros (k : nat) (d : Decimal.uint) : Decimal.uint :=
  match k with
  | 0 => d
  | S k' => Decimal.D0 (pad_zeros k' d)
  end.

Definition fmt_d (width n : nat) : string :=
  let d := Nat.to_uint n in
  NilEmpty.string_of_uint (pad_zeros (width - Decimal.nb_digits d) d).

(** The line feed, ["\n"]. *)
Definition LF : string := String "010"%char "".

(** [str(n)] *)
Definition str (n : nat) : string := NilEmpty.string_of_uint (Nat.to_uint n).

Definition run_name (run_idx : nat) : string :=
  "run_" +:+ fmt_d 6 run_idx +:+ ".bin".

Definition merge_name (level batch : nat) : string :=
  "merge_" +:+ fmt_d 3 level +:+ "_" +:+ fmt_d 6 batch +:+ ".bin".

Definition run_path (tmp_dir : string) (run_idx : nat) : string :=
  path_join tmp_dir (run_name run_idx).

Definition merge_path (tmp_dir : string) (level batch : nat) : string :=
  path_join tmp_dir (merge_name level batch).

(** ** Text input *)

(** [open(p, "r", encoding="ascii", errors="strict")]: a byte above 127
    raises. The model decodes the file before the first line is handed out;
    the source decodes it block by block while it reads. The runs are
    written to a directory that did not exist before, never over the
    input, so the lines are the same either way. *)
Definition decode_ascii (c : bytes) : option string :=
  if forallb (λ b, (Byte.to_N b <? 128)%N) c
  then Some (string_of_list_byte c)
  else None.

(** Iterating a text file opened with [newline=""]: a line ends after
    ["\n"], after ["\r\n"] or after a lone ["\r"], and keeps its ending. *)
Fixpoint iter_lines (s cur : string) : list string :=
  match s with
  | "" => if bool_decide (cur = "") then [] else [cur]
  | String c s' =>
      if bool_decide (c = "010"%char) then
        (cur +:+ String c "") :: iter_lines s' ""
      else if bool_decide (c = "013"%char) then
        match s' with
        | String c' s'' =>
            if bool_decide (c' = "010"%char) then
              (cur +:+ String c (String c' "")) :: iter_lines s'' ""
            else (cur +:+ String c "") :: iter_lines s' ""
        | "" => [cur +:+ String c ""]
        end
      else iter_lines s' (cur +:+ String c "")
  end.

Definition read_text_lines (p : string) : M (list string) :=
  c <- open_rb p ;;
  match decode_ascii c with
  | Some s => ret (iter_lines s "")
  | None => raise UnicodeDecodeError
  end.

(** [str.isspace] on the ASCII range: tab, line feed, vertical tab, form
    feed, carriage return, the four separators 28 to 31, and space. *)
Definition isspace (c : ascii) : bool :=
  let n := nat_of_ascii c in
  (9 <=? n) && (n <=? 13) || (28 <=? n) && (n <=? 32).

Fixpoint lstrip (s : string) : string :=
  match s with
  | "" => ""
  | String c s' => if isspace c then lstrip s' else s
  end.

Fixpoint rstrip (s : string) : string :=
  match s with
  | "" => ""
  | String c s' =>
      let r := rstrip s' in
      if isspace c && bool_decide (r = "") then "" else String c r
  end.

(** [s.strip()] *)
Definition strip (s : string) : string := rstrip (lstrip s).

(** ** [heapq]

    The module is a library of Python, and the source relies on what it
    promises: a list kept in heap order, from which [heappop] takes the
    least item. The development is stated for every implementation that
    keeps this promise; [is_heap] is the heap order of the implementation,
    of which nothing else is known. *)
Abbreviation item := (bytes * nat)%type.

Class Heapq := {
  heapify : list item → list item;
  heappush : list item → item → list item;
  heappop : list item → option (item * list item);
  is_heap : list item → Prop;
  heapify_is_heap l : is_heap (heapify l);
  heapify_perm l : heapify l ≡ₚ l;
  heappush_is_heap heap x : is_heap heap → is_heap (heappush heap x);
  heappush_perm heap x : is_heap heap → heappush heap x ≡ₚ x :: heap;
  heappop_least heap :
    is_heap heap → heap ≠ [] →
    ∃ x heap',
      heappop heap = Some (x, heap') ∧ is_heap heap' ∧
      heap ≡ₚ x :: heap' ∧ Forall (lexle x) heap'
}.

(** An implementation to compute with: the list of the items in ascending
    order. *)
Section sorted_heap.
Context `{Lexico A, !StrictOrder (@lexico A _), !TrichotomyT (@lexico A _)}.

Fixpoint sorted_heappush (heap : list A) (x : A) : list A :=
  match heap with
  | [] => [x]
  | y :: heap' =>
      if decide (lexico y x) then y :: sorted_heappush heap' x
      else x :: heap
  end.

Definition sorted_heapify (l : list A) : list A := foldl sorted_heappush [] l.

Definition sorted_heappop (heap : list A) : option (A * list A) :=
  match heap with
  | [] => None
  | x :: heap' => Some (x, heap')
  end.
End sorted_heap.

(** ** The k-way merge *)

Definition RECORD_SIZE : nat := 16.
Global Arguments RECORD_SIZE : simpl never.

(** [l] cut into consecutive pieces of [size] items; the last piece is
    shorter when [size] does not divide the length. *)
Fixpoint chunks_fuel {A} (fuel size : nat) (l : list A) : list (list A) :=
  match fuel, l with
  | S fuel', _ :: _ => take size l :: chunks_fuel fuel' size (drop size l)
  | _, _ => []
  end.

Definition chunks {A} (size : nat) (l : list A) : list (list A) :=
  chunks_fuel (length l) size l.

(** The records a reader gets out of a run file: [f.read(RECORD_SIZE)]
    until it returns nothing. The last one is short when the length of the
    file is no multiple of [RECORD_SIZE]. *)
Definition records (f : bytes) : list bytes := chunks RECORD_SIZE f.

(** [for i, f in enumerate(files): rec = f.read(RECORD_SIZE); if rec:
    heap.append((rec, i))]: the list appended to the heap and the handles
    after the read. *)
Fixpoint read_first_records (i : nat) (handles : list bytes)
    : list (bytes * nat) * list bytes :=
  match handles with
  | [] => ([], [])
  | f :: handles' =>
      let rec := take RECORD_SIZE f in
      let '(heap, rest) := read_first_records (S i) handles' in
      (if bool_decide (rec = []) then heap else (rec, i) :: heap,
       drop RECORD_SIZE f :: rest)
  end.

(** The [argparse.Namespace] of [parse_args]: the two positional
    arguments of the command line. *)
Record Namespace := {
  input_path : string;
  output_path : string
}.

Section program.
Context `{Heapq}.

Section kway.
Context {St : Type} (emit : St → bytes → St).

(** The [while heap:] loop shared by [merge_runs_to_file] (lines 146 to
    151) and [count_unique_across_runs] (lines 228 to 236); [emit] is
    what each of them does with the popped record. Every turn pops
    one record, and the files hold no more records than bytes, so the
    loop ends; [fuel] bounds the number of turns. *)
Fixpoint kway_loop (fuel : nat) (heap : list item)
    (handles : list bytes) (acc : St) : outcome St :=
  match heap with
  | [] => Ok acc
  | _ :: _ =>
      match fuel with
      | 0 => Timeout
      | S fuel' =>
          match heappop heap with
          | None => Raise IndexError
          | Some ((rec, i), heap') =>
              let acc' := emit acc rec in
              match handles !! i with
              | None => Raise IndexError
              | Some f =>
                  let nxt := take RECORD_SIZE f in
                  let handles' := <[i := drop RECORD_SIZE f]> handles in
                  let heap'' :=
                    if bool_decide (nxt = []) then heap'
                    else heappush heap' (nxt, i) in
                  kway_loop fuel' heap'' handles' acc'
              end
          end
      end
  end.

Definition kway (handles : list bytes) (init : St) : outcome St :=
  let '(heap, rest) := read_first_records 0 handles in
  kway_loop (length (mjoin handles)) (heapify heap) rest init.
End kway.

Definition lift {A} (r : outcome A) : M A := λ w, (r, w).

(** ** The pipeline *)

Fixpoint _open_runs (run_paths : list string) : M (list bytes) :=
  match run_paths with
  | [] => ret []
  | p :: rest =>
      f <- open_rb p ;;
      files <- _open_runs rest ;;
      ret (f :: files)
  end.

(** The [finally] clause of the source closes the handles, which has no
    effect on the modelled world. *)
Definition merge_runs_to_file (run_paths : list string) (out_path : string)
    : M unit :=
  handles <- _open_runs run_paths ;;
  out <- lift (kway (λ out rec, out ++ rec) handles []) ;;
  write_file out_path out.

Definition count_step (st : option bytes * nat) (rec : bytes)
    : option bytes * nat :=
  let '(prev, uniq) := st in
  if bool_decide (prev ≠ Some rec) then (Some rec, S uniq) else (prev, uniq).

Definition count_unique_across_runs (run_paths : list string) : M nat :=
  if bool_decide (run_paths = []) then ret 0
  else
    handles <- _open_runs run_paths ;;
    st <- lift (kway count_step handles (None, 0)) ;;
    ret st.2.

(** [range(0, stop, step)] for [step > 0]. *)
Fixpoint range_from (fuel start stop step : nat) : list nat :=
  match fuel with
  | 0 => []
  | S fuel' =>
      if decide (start < stop)
      then start :: range_from fuel' (start + step) stop step
      else []
  end.

Definition py_range (stop : nat) (step : Z) : M (list nat) :=
  if bool_decide (step = 0)%Z then
    raise (ValueError "range() arg 3 must not be zero")
  else if bool_decide (step < 0)%Z then ret []
  else ret (range_from stop 0 stop (Z.to_nat step)).

(** [for p in batch: try: os.remove(p) except FileNotFoundError: pass] *)
Fixpoint remove_batch (batch : list string) : M unit :=
  match batch with
  | [] => ret tt
  | p :: rest => except_FileNotFoundError_pass (os_remove p) ;; remove_batch rest
  end.

(** The [for batch_start in range(0, len(runs), fan_in)] loop, entered
    with [fan_in > 0]. *)
Fixpoint merge_batches (starts : list nat) (runs : list string)
    (tmp_dir : string) (fan_in level : nat) (new_runs : list string)
    : M (list string) :=
  match starts with
  | [] => ret new_runs
  | batch_start :: starts' =>
      let batch := take fan_in (drop batch_start runs) in
      let merged_path :=
        path_join tmp_dir (merge_name level (batch_start / fan_in)) in
      merge_runs_to_file batch merged_path ;;
      remove_batch batch ;;
      merge_batches starts' runs tmp_dir fan_in level (new_runs ++ [merged_path])
  end.

(** One turn of the [while] loop of [reduce_runs], lines 179 to 196: the
    runs of the next generation. *)
Definition reduce_pass (runs : list string) (tmp_dir : string) (fan_in : Z)
    (level : nat) : M (list string) :=
  starts <- py_range (length runs) fan_in ;;
  merge_batches starts runs tmp_dir (Z.to_nat fan_in) level [].

(** The [while len(runs) > fan_in] loop. Nothing in the source bounds the
    number of passes, so the model takes [fuel]. *)
Fixpoint reduce_loop (fuel : nat) (runs : list string) (tmp_dir : string)
    (fan_in : Z) (level : nat) : M (list string) :=
  if bool_decide (Z.of_nat (length runs) > fan_in)%Z then
    match fuel with
    | 0 => timeout
    | S fuel' =>
        new_runs <- reduce_pass runs tmp_dir fan_in level ;;
        reduce_loop fuel' new_runs tmp_dir fan_in (S level)
    end
  else ret runs.

Definition reduce_runs (fuel : nat) (run_paths : list string)
    (tmp_dir : string) (fan_in : Z) : M (list string) :=
  reduce_loop fuel run_paths tmp_dir fan_in 0.

Definition flush_run (buf : list bytes) (tmp_dir : string) (run_idx : nat)
    : M string :=
  let buf := merge_sort lexle buf in
  let path := path_join tmp_dir (run_name run_idx) in
  write_file path (mjoin buf) ;;
  ret path.

Section encoder.
(** [socket.inet_pton(socket.AF_INET6, addr)]: the packed address, or
    the exception the call raised. *)
Context (inet_pton6 : string → exn + bytes).

Definition ipv6_to_packed (addr : string) : M bytes :=
  match inet_pton6 addr with
  | inr packed => ret packed
  | inl e => raise e
  end.

(** The [for line in fin] loop: the state is [(runs, buf, run_idx)]. *)
Fixpoint read_loop (lines : list string) (tmp_dir : string)
    (chunk_records : Z) (runs : list string) (buf : list bytes)
    (run_idx : nat) : M (list string * list bytes * nat) :=
  match lines with
  | [] => ret (runs, buf, run_idx)
  | line :: rest =>
      let s := strip line in
      if bool_decide (s = "") then
        read_loop rest tmp_dir chunk_records runs buf run_idx
      else
        packed <- ipv6_to_packed s ;;
        let buf := buf ++ [packed] in
        if bool_decide (Z.of_nat (length buf) >= chunk_records)%Z then
          path <- flush_run buf tmp_dir run_idx ;;
          read_loop rest tmp_dir chunk_records (runs ++ [path]) []
            (S run_idx)
        else read_loop rest tmp_dir chunk_records runs buf run_idx
  end.

Definition generate_initial_runs (input_path tmp_dir : string)
    (chunk_records : Z) : M (list string) :=
  lines <- read_text_lines input_path ;;
  st <- read_loop lines tmp_dir chunk_records [] [] 0 ;;
  let '(runs, buf, run_idx) := st in
  if bool_decide (buf ≠ []) then
    path <- flush_run buf tmp_dir run_idx ;;
    ret (runs ++ [path])
  else ret runs.

Definition tmp_kept_message (tmp_dir : string) : string :=
  "[INFO] Временная директория сохранена: " +:+ tmp_dir.

(** The [try] block of [count_unique_ipv6_external], lines 269 to 277. *)
Definition try_block (fuel : nat) (tmp_dir : string)
    (input_path output_path : string) (chunk_records fan_in : Z) : M nat :=
  runs <- generate_initial_runs input_path tmp_dir chunk_records ;;
  runs <- reduce_runs fuel runs tmp_dir fan_in ;;
  ans <- count_unique_across_runs runs ;;
  write_file output_path (list_byte_of_string (str ans +:+ LF)) ;;
  ret ans.

(** [tmp_dir] is what [tempfile.mkdtemp(prefix="ipv6_uniq_")] returned:
    a directory that did not exist before. *)
Definition count_unique_ipv6_external (fuel : nat) (tmp_dir : string)
    (input_path output_path : string) (chunk_records fan_in : Z)
    (keep_tmp : bool) : M nat :=
  try_finally
    (try_block fuel tmp_dir input_path output_path chunk_records fan_in)
    (if keep_tmp then print (tmp_kept_message tmp_dir)
     else rmtree tmp_dir).

(** [main], lines 303 to 306: [args] is what [parse_args] made of the
    command line, and the orchestrator runs with its default batch size,
    fan-in and [keep_tmp]; the count it returns is dropped. *)
Definition main (fuel : nat) (tmp_dir : string) (args : Namespace) : M unit :=
  count_unique_ipv6_external fuel tmp_dir (input_path args) (output_path args)
    1000000 128 false ;;
  ret tt.
End encoder.
End program.

(** ** A sample encoder

    The examples need a concrete encoder. This one accepts the full form of
    an address only, eight groups of one to four hexadecimal digits
    separated by colons, and packs it as [inet_pton] does; it rejects every
    other text, the compressed forms included. *)
Definition hex_digit_value (c : ascii) : option N :=
  let n := N_of_ascii c in
  if (48 <=? n)%N && (n <=? 57)%N then Some (n - 48)%N
  else if (97 <=? n)%N && (n <=? 102)%N then Some (n - 87)%N
  else if (65 <=? n)%N && (n <=? 70)%N then Some (n - 55)%N
  else None.

Fixpoint parse_hex (s : string) (acc : N) : option N :=
  match s with
  | "" => Some acc
  | String c s' => v ← hex_digit_value c; parse_hex s' (acc * 16 + v)%N
  end.

Definition parse_group (s : string) : option N :=
  if (1 <=? String.length s) && (String.length s <=? 4)
  then parse_hex s 0 else None.

Fixpoint split_colon (s cur : string) : list string :=
  match s with
  | "" => [cur]
  | String c s' =>
      if bool_decide (c = ":"%char) then cur :: split_colon s' ""
      else split_colon s' (cur +:+ String c "")
  end.

Definition group_bytes (v : N) : bytes :=
  [default x00 (Byte.of_N (v / 256)); default x00 (Byte.of_N (v mod 256))].

Definition illegal_address : exn :=
  OSError "illegal IP address string passed to inet_pton".

Definition sample_inet_pton6 (addr : string) : exn + bytes :=
  match mapM parse_group (split_colon addr "") with
  | Some groups =>
      if bool_decide (length groups = 8)
      then inr (mjoin (group_bytes <$> groups))
      else inl illegal_address
  | None => inl illegal_address
  end.

Definition text (s : string) : bytes := list_byte_of_string s.

Definition disk (l : list (string * bytes)) : world :=
  World (list_to_map l) [] [].

(** The packed form of [0:0:0:0:0:0:0:b]. *)
Definition sample_key (b : byte) : bytes := replicate 15 x00 ++ [b].

Definition sample_dir : string := "/tmp/ipv6_uniq_w".

(** Four addresses, one of them twice. *)
Definition sample_input : string :=
  "0:0:0:0:0:0:0:1" +:+ LF +:+ "0:0:0:0:0:0:0:3" +:+ LF +:+
  "0:0:0:0:0:0:0:1" +:+ LF +:+ "0:0:0:0:0:0:0:2" +:+ LF.

Definition sample_world : world := disk [("in.txt", text sample_input)].

(** Five times the same address. *)
Definition five_copies : world :=
  disk [("in.txt",
         text ("0:0:0:0:0:0:0:1" +:+ LF +:+ "0:0:0:0:0:0:0:1" +:+ LF +:+
               "0:0:0:0:0:0:0:1" +:+ LF +:+ "0:0:0:0:0:0:0:1" +:+ LF +:+
               "0:0:0:0:0:0:0:1" +:+ LF))].

(** An input whose only line does not encode, and one whose second line
    does not. *)
Definition bad_first_line : world := disk [("in.txt", text ("zz" +:+ LF))].

Definition bad_second_line : world :=
  disk [("in.txt", text ("0:0:0:0:0:0:0:1" +:+ LF +:+ "zz" +:+ LF))].

(** An input of two blank lines, and the empty input. *)
Definition blank_lines : world := disk [("in.txt", text ("  " +:+ LF +:+ LF))].

Definition empty_input : world := disk [("in.txt", [])].

(** A run file of 17 bytes: one record and a tail of one byte. *)
Definition truncated_run : world :=
  disk [(run_path sample_dir 0, sample_key x01 ++ [x07])].

(** An encoder that, unlike the sample one, accepts the empty text. *)
Definition lenient_inet_pton6 (addr : string) : exn + bytes :=
  if bool_decide (addr = "") then inr [] else sample_inet_pton6 addr.

(** Three runs of one record each, as the builder leaves them. *)
Definition three_runs : world :=
  disk [(run_path sample_dir 0, sample_key x01);
        (run_path sample_dir 1, sample_key x03);
        (run_path sample_dir 2, sample_key x02)].

(** * Vocabulary of the claims *)

(** The content of a run file that holds the given records. *)
Abbreviation flat := (@mjoin list _ byte).

(** [holds fs paths cs]: the files [paths] exist and their contents are
    [cs], in order. *)
Definition holds (fs : gmap string bytes) (paths : list string)
    (cs : list bytes) : Prop :=
  Forall2 (λ p c, fs !! p = Some c) paths cs.

(** Every record of every run is [RECORD_SIZE] bytes long. *)
Definition record_sized (recs : list (list bytes)) : Prop :=
  Forall (Forall (λ r, length r = RECORD_SIZE)) recs.

(** The sequence of records that the merge of [handles] pops, in order. *)
Definition merged `{Heapq} (handles : list bytes) : list bytes :=
  match kway (λ acc rec, acc ++ [rec]) handles [] with
  | Ok out => out
  | _ => []
  end.

(** The runs that a pass makes out of [recs] with batches of [f] runs. *)
Definition pass_records `{Heapq} (f : nat) (recs : list (list bytes))
    : list (list bytes) :=
  (λ batch, merged (flat <$> batch)) <$> chunks f recs.

(** The pass over the batches themselves, the [k]-th being merged into
    [merge_path tmp_dir level k]. *)
Fixpoint pass_batches `{Heapq} (bs : list (list string)) (tmp_dir : string)
    (level k : nat) (new_runs : list string) : M (list string) :=
  match bs with
  | [] => ret new_runs
  | batch :: bs' =>
      merge_runs_to_file batch (merge_path tmp_dir level k) ;;
      remove_batch batch ;;
      pass_batches bs' tmp_dir level (S k)
        (new_runs ++ [merge_path tmp_dir level k])
  end.

(** No run of [runs] bears a name that a pass of level [level] or later
    gives to its output. *)
Definition no_clash (tmp_dir : string) (level : nat) (runs : list string)
    : Prop :=
  ∀ p l j, p ∈ runs → level ≤ l → p ≠ merge_path tmp_dir l j.

(** A run set of the pipeline at the pass [level]: pairwise different
    files that hold 16-byte records, none of them named like an output of
    this pass or of a later one. *)
Record run_set (tmp_dir : string) (level : nat) (w : world)
    (runs : list string) (recs : list (list bytes)) : Prop := RunSet {
  run_set_holds : holds (files w) runs (flat <$> recs);
  run_set_NoDup : NoDup runs;
  run_set_sized : record_sized recs;
  run_set_names : no_clash tmp_dir level runs
}.

(** What the builder has made so far: the runs [run_path tmp_dir i] for
    [i < run_idx], holding sorted lists of 16-byte records. *)
Definition built (tmp_dir : string) (w : world) (runs : list string)
    (run_idx : nat) (recs : list (list bytes)) : Prop :=
  runs = run_path tmp_dir <$> seq 0 run_idx ∧
  holds (files w) runs (flat <$> recs) ∧
  record_sized recs ∧
  Forall (StronglySorted lexle) recs.

(** The lines that iterating the input file hands out. *)
Definition input_lines (w : world) (input_path : string)
    : option (list string) :=
  c ← files w !! input_path;
  s ← decode_ascii c;
  Some (iter_lines s "").

(** The content of the output file for the count [n]. *)
Definition count_line (n : nat) : bytes :=
  list_byte_of_string (str n +:+ LF).

(** The number of distinct keys of a sequence: the cardinality of its
    underlying set. *)
Definition distinct_count (keys : list bytes) : nat :=
  size (list_to_set keys : gset bytes).

(** What the loop still has to emit: [pend !! i] is the record of run [i]
    that waits in the heap, followed by the records left in its handle. *)
Definition pending `{Heapq} (heap : list item) (handles : list bytes)
    (pend : list (list bytes)) : Prop :=
  is_heap heap ∧
  NoDup heap.*2 ∧
  Forall2 (λ f p, records f = tail p) handles pend ∧
  ∀ rec i, (rec, i) ∈ heap ↔ ∃ tl, pend !! i = Some (rec :: tl).

(** [w'] differs from [w] on no file outside the directory [d]. *)
Definition touches_only (d : string) (w w' : world) : Prop :=
  ∀ q, in_dir d q = false → files w' !! q = files w !! q.

(** [m] changes files below [d] only, and what it returns satisfies [Q]. *)
Definition confined (d : string) {A} (Q : A → Prop) (m : M A) : Prop :=
  ∀ w, touches_only d w (m w).2 ∧ ∀ a, (m w).1 = Ok a → Q a.

(** All of [paths] lie below [d]. *)
Definition all_in_dir (d : string) (paths : list string) : Prop :=
  Forall (λ p, in_dir d p = true) paths.

(** A decimal digit. *)
Definition is_digit (c : ascii) : bool :=
  let n := nat_of_ascii c in (48 <=? n) && (n <=? 57).

(** What [os.path.join] puts before a relative name in the directory [d]. *)
Definition dir_prefix (d : string) : string :=
  if bool_decide (d = "") || endswith_sep d then d else d +:+ "/".

(** No file lies below [d]: the state of a directory that [mkdtemp] has
    just made. *)
Definition fresh_dir (d : string) (w : world) : Prop :=
  ∀ q, in_dir d q = true → files w !! q = None.

Section lines_of_the_input.
Context (inet_pton6 : string → exn + bytes).

(** The keys of the lines of the input, in order, or the exception of
    the first line that does not encode. Blank lines have no key. *)
Fixpoint encode_lines (lines : list string) : exn + list bytes :=
  match lines with
  | [] => inr []
  | line :: rest =>
      if bool_decide (strip line = "") then encode_lines rest
      else
        match inet_pton6 (strip line) with
        | inl e => inl e
        | inr packed =>
            match encode_lines rest with
            | inl e => inl e
            | inr keys => inr (packed :: keys)
            end
        end
  end.

(** The number of the first line that does not encode, counting from [n]. *)
Fixpoint first_bad_line (lines : list string) (n : nat) : option nat :=
  match lines with
  | [] => None
  | line :: rest =>
      if bool_decide (strip line = "") then first_bad_line rest (S n)
      else
        match inet_pton6 (strip line) with
        | inl _ => Some n
        | inr _ => first_bad_line rest (S n)
        end
  end.

End lines_of_the_input.

(** * Properties *)

(** ** The sorted list is a heap *)
Section sorted_heap_facts.
Context `{Lexico A, !StrictOrder (@lexico A _), !TrichotomyT (@lexico A _)}.
Implicit Types (heap : list A) (x : A).

Lemma sorted_heappush_perm heap x : sorted_heappush heap x ≡ₚ x :: heap.
Proof.
  induction heap as [|y heap IH]; simpl; [done|].
  case_decide; [|done]. by rewrite IH, Permutation_swap.
Qed.

Lemma sorted_heappush_sorted heap x :
  StronglySorted lexle heap → StronglySorted lexle (sorted_heappush heap x).
Proof.
  induction 1 as [|y heap Hs IH Hy]; simpl.
  - repeat constructor.
  - case_decide as Hlt.
    + constructor; [done|]. rewrite sorted_heappush_perm. constructor; [|done].
      apply lexle_alt. by right.
    + constructor; [by constructor|]. constructor; [done|].
      eapply Forall_impl; [exact Hy|]. intros z Hz. by trans y.
Qed.

Lemma sorted_heapify_perm l : sorted_heapify l ≡ₚ l.
Proof.
  unfold sorted_heapify. rewrite <-(app_nil_l l) at 2.
  generalize (@nil A). induction l as [|x l IH]; intros acc; simpl.
  - by rewrite app_nil_r.
  - rewrite IH, sorted_heappush_perm. simpl. apply Permutation_middle.
Qed.

Lemma sorted_heapify_sorted l : StronglySorted lexle (sorted_heapify l).
Proof.
  unfold sorted_heapify. assert (StronglySorted lexle (@nil A)) as Hs by constructor.
  revert Hs. generalize (@nil A). induction l as [|x l IH]; intros acc Hs; simpl.
  - done.
  - by apply IH, sorted_heappush_sorted.
Qed.
End sorted_heap_facts.

Lemma sorted_heappop_least (heap : list item) :
  StronglySorted lexle heap → heap ≠ [] →
  ∃ x heap',
    sorted_heappop heap = Some (x, heap') ∧ StronglySorted lexle heap' ∧
    heap ≡ₚ x :: heap' ∧ Forall (lexle x) heap'.
Proof.
  intros Hs Hne. destruct heap as [|x heap]; [done|].
  apply StronglySorted_cons in Hs as [Hx Hs]. by exists x, heap.
Qed.

Global Instance sorted_heapq : Heapq := {|
  heapify := sorted_heapify;
  heappush := sorted_heappush;
  heappop := sorted_heappop;
  is_heap := StronglySorted lexle;
  heapify_is_heap := sorted_heapify_sorted;
  heapify_perm := sorted_heapify_perm;
  heappush_is_heap heap x := sorted_heappush_sorted heap x;
  heappush_perm heap x _ := sorted_heappush_perm heap x;
  heappop_least := sorted_heappop_least
|}.

(** ** Records of a run file *)

Lemma mjoin_cons {A} (l : list A) (ls : list (list A)) :
  mjoin (l :: ls) = l ++ mjoin ls.
Proof. done. Qed.

Section chunks_facts.
Context {A : Type} (size : nat) (Hsize : 0 < size).
Implicit Types l : list A.

Lemma chunks_fuel_irrel n m l :
  length l ≤ n → length l ≤ m → chunks_fuel n size l = chunks_fuel m size l.
Proof.
  revert m l. induction n as [|n IH]; intros m l Hn Hm.
  - destruct l; [by destruct m|simpl in Hn; lia].
  - destruct l as [|x l]; [by destruct m|].
    destruct m as [|m]; [simpl in Hm; lia|].
    cbn [chunks_fuel]. f_equal.
    apply IH; rewrite length_drop; simpl in *; lia.
Qed.

Lemma chunks_nil : chunks size (@nil A) = [].
Proof. done. Qed.

Lemma chunks_step l :
  l ≠ [] → chunks size l = take size l :: chunks size (drop size l).
Proof.
  intros Hl. destruct l as [|x l]; [done|].
  unfold chunks at 1. simpl length. cbn [chunks_fuel]. f_equal.
  apply chunks_fuel_irrel; rewrite ?length_drop; simpl; lia.
Qed.

Lemma chunks_ind (P : list A → Prop) :
  P [] → (∀ l, l ≠ [] → P (drop size l) → P l) → ∀ l, P l.
Proof.
  intros Hnil Hstep l. remember (length l) as n eqn:Hn. revert l Hn.
  induction (lt_wf n) as [n _ IH]; intros l ->.
  destruct l as [|x l]; [done|]. apply Hstep; [done|].
  apply (IH (length (drop size (x :: l)))); [|done].
  rewrite length_drop. simpl. lia.
Qed.

Lemma mjoin_chunks l : mjoin (chunks size l) = l.
Proof.
  induction l as [|l Hl IH] using chunks_ind; [done|].
  by rewrite chunks_step, mjoin_cons, IH, take_drop.
Qed.

Lemma chunks_nonempty l : Forall (λ c, c ≠ []) (chunks size l).
Proof.
  induction l as [|l Hl IH] using chunks_ind; [constructor|].
  rewrite chunks_step by done. constructor; [|done].
  destruct l; [done|]. by destruct size; [lia|].
Qed.

Lemma chunks_length_le l : length (chunks size l) ≤ length l.
Proof.
  induction l as [|l Hl IH] using chunks_ind; [done|].
  rewrite chunks_step by done. rewrite length_drop in IH.
  destruct l; [done|]. simpl in *. lia.
Qed.

Lemma chunks_length_lt l :
  2 ≤ size → 2 ≤ length l → length (chunks size l) < length l.
Proof.
  intros ? Hl. destruct l as [|x l]; [simpl in Hl; lia|].
  rewrite chunks_step by done.
  pose proof (chunks_length_le (drop size (x :: l))) as Hle.
  rewrite length_drop in Hle. simpl in *. lia.
Qed.

Lemma chunks_mjoin (cs : list (list A)) :
  Forall (λ c, length c = size) cs → chunks size (mjoin cs) = cs.
Proof.
  induction 1 as [|c cs Hc _ IH]; [done|].
  rewrite mjoin_cons, chunks_step.
  - rewrite take_app_length', drop_app_length' by done. by rewrite IH.
  - destruct c; [simpl in Hc; lia|done].
Qed.

End chunks_facts.

Lemma chunks_Forall2 {A B} (P : A → B → Prop) size (l : list A) (k : list B) :
  0 < size →
  Forall2 P l k → Forall2 (Forall2 P) (chunks size l) (chunks size k).
Proof.
  intros Hsize. revert k.
  induction l as [|l Hl IH] using (chunks_ind size Hsize); intros k Hlk.
  - apply Forall2_nil_inv_l in Hlk as ->. constructor.
  - assert (k ≠ []) as Hk by (intros ->; by apply Forall2_nil_inv_r in Hlk).
    rewrite (chunks_step size Hsize l), (chunks_step size Hsize k) by done.
    constructor.
    + by apply Forall2_take.
    + by apply IH, Forall2_drop.
Qed.

Lemma records_nil : records [] = [].
Proof. done. Qed.

Lemma records_step f :
  f ≠ [] → records f = take RECORD_SIZE f :: records (drop RECORD_SIZE f).
Proof. apply chunks_step. unfold RECORD_SIZE. lia. Qed.

Lemma records_concat (rs : list bytes) :
  Forall (λ r, length r = RECORD_SIZE) rs → records (mjoin rs) = rs.
Proof. apply chunks_mjoin. unfold RECORD_SIZE. lia. Qed.

Lemma concat_records f : mjoin (records f) = f.
Proof. apply mjoin_chunks. unfold RECORD_SIZE. lia. Qed.

Lemma records_nonempty f : Forall (λ r, r ≠ []) (records f).
Proof. apply chunks_nonempty. unfold RECORD_SIZE. lia. Qed.

Lemma records_length_le f : length (records f) ≤ length f.
Proof. apply chunks_length_le. unfold RECORD_SIZE. lia. Qed.

(** ** The merge loop *)

Section with_heapq.
Context `{Heapq}.

Lemma lexle_pair_fst (a b : bytes) (i j : nat) : lexle (a, i) (b, j) → lexle a b.
Proof. unfold lexle. intros Hn Hlt. apply Hn. by left. Qed.

Lemma concat_insert_tail {A} (pend : list (list A)) i x tl :
  pend !! i = Some (x :: tl) → mjoin pend ≡ₚ x :: mjoin (<[i := tl]> pend).
Proof.
  revert i. induction pend as [|p pend IH]; intros [|i] Hi; simplify_eq/=.
  - done.
  - rewrite (IH _ Hi). by rewrite Permutation_middle.
Qed.

Lemma pending_nil handles pend : pending [] handles pend → mjoin pend = [].
Proof.
  intros (_ & _ & _ & Hheap).
  assert (Forall (λ p, p = []) pend) as Hall.
  { apply Forall_lookup. intros i [|x tl] Hi; [done|].
    exfalso. apply (not_elem_of_nil (x, i)). apply Hheap. eauto. }
  clear Hheap. induction Hall as [|? ? -> _ IH]; simpl; auto.
Qed.

Lemma take_record_nil (f : bytes) : take RECORD_SIZE f = [] → f = [].
Proof. by destruct f. Qed.

Lemma pending_step rec i heap heap' handles pend :
  pending heap handles pend →
  is_heap heap' →
  heap ≡ₚ (rec, i) :: heap' →
  ∃ f tl,
    handles !! i = Some f ∧ pend !! i = Some (rec :: tl) ∧ records f = tl ∧
    pending (if bool_decide (take RECORD_SIZE f = []) then heap'
             else heappush heap' (take RECORD_SIZE f, i))
            (<[i := drop RECORD_SIZE f]> handles) (<[i := tl]> pend).
Proof.
  intros (_ & Hnd & Hrec & Hheap) Hs Hperm.
  rewrite Hperm, fmap_cons in Hnd. setoid_rewrite Hperm in Hheap.
  destruct (proj1 (Hheap rec i)) as [tl Hi]; [left|].
  destruct (Forall2_lookup_r _ _ _ _ _ Hrec Hi) as (f & Hf & Hft).
  simpl in Hft. exists f, tl. split_and!; [done..|].
  apply NoDup_cons in Hnd as [Hi' Hnd]. simpl in Hi'.
  assert (∀ r j, (r, j) ∈ heap' ↔ j ≠ i ∧ ∃ tl', pend !! j = Some (r :: tl'))
    as Hheap'.
  { intros r j. split.
    - intros Hin. split.
      + intros ->. apply Hi'. apply list_elem_of_fmap. by exists (r, i).
      + apply Hheap. by right.
    - intros [Hne Hj]. apply Hheap in Hj.
      apply elem_of_cons in Hj as [[=]|]; done. }
  case_bool_decide as Hnxt.
  - apply take_record_nil in Hnxt as ->. rewrite records_nil in Hft. subst tl.
    split_and!; [done|done| |].
    + apply Forall2_insert; [done|]. by rewrite drop_nil.
    + intros r j. rewrite Hheap'. destruct (decide (j = i)) as [->|Hne].
      * rewrite list_lookup_insert_eq by (by eapply lookup_lt_Some).
        split; [by intros [??]|by intros [? [=]]].
      * rewrite list_lookup_insert_ne by done.
        split; [by intros [_ ?]|by split].
  - assert (f ≠ []) as Hf' by (by intros ->).
    rewrite (records_step _ Hf') in Hft. subst tl.
    split_and!.
    + by apply heappush_is_heap.
    + rewrite heappush_perm by done. rewrite fmap_cons. by apply NoDup_cons.
    + by apply Forall2_insert.
    + intros r j. rewrite heappush_perm by done. rewrite elem_of_cons, Hheap'.
      destruct (decide (j = i)) as [->|Hne].
      * rewrite list_lookup_insert_eq by (by eapply lookup_lt_Some).
        split; [intros [[= -> ]|[??]]; [eauto|done]|].
        intros [? [=]]. left. congruence.
      * rewrite list_lookup_insert_ne by done.
        split; [intros [[=]|[_ ?]]; done|by right].
Qed.

Lemma pending_sorted_min rec i heap heap' handles pend tl :
  pending heap handles pend →
  heap ≡ₚ (rec, i) :: heap' →
  Forall (lexle (rec, i)) heap' →
  pend !! i = Some (rec :: tl) →
  Forall (StronglySorted lexle) pend →
  Forall (lexle rec) (mjoin (<[i := tl]> pend)).
Proof.
  intros (_ & _ & _ & Hheap) Hperm Hmin Hi Hpend.
  setoid_rewrite Hperm in Hheap.
  apply Forall_forall. intros x Hx.
  apply list_elem_of_join in Hx as (p & Hxp & Hp).
  apply list_elem_of_lookup in Hp as [j Hj].
  destruct (decide (j = i)) as [->|Hne].
  - rewrite list_lookup_insert_eq in Hj by (by eapply lookup_lt_Some).
    simplify_eq. eapply Forall_lookup in Hpend; [|exact Hi].
    apply StronglySorted_cons in Hpend as [Hle _].
    by eapply Forall_forall in Hle.
  - rewrite list_lookup_insert_ne in Hj by done.
    destruct p as [|r tl']; [by apply elem_of_nil in Hxp|].
    assert ((r, j) ∈ (rec, i) :: heap') as Hin by (apply Hheap; eauto).
    apply elem_of_cons in Hin as [[=]|Hin]; [done|].
    eapply Forall_forall in Hmin; [|exact Hin].
    apply lexle_pair_fst in Hmin. trans r; [done|].
    eapply Forall_lookup in Hpend; [|exact Hj].
    apply elem_of_cons in Hxp as [->|Hxp]; [done|].
    apply StronglySorted_cons in Hpend as [Hle _].
    by eapply Forall_forall in Hle.
Qed.

Lemma kway_loop_spec fuel heap handles pend :
  pending heap handles pend →
  length (mjoin pend) ≤ fuel →
  ∃ out,
    (∀ St (emit : St → bytes → St) acc,
       kway_loop emit fuel heap handles acc = Ok (foldl emit acc out)) ∧
    out ≡ₚ mjoin pend ∧
    (Forall (StronglySorted lexle) pend → StronglySorted lexle out).
Proof.
  revert heap handles pend.
  induction fuel as [|fuel IH]; intros heap handles pend Hpend Hfuel.
  - destruct heap as [|x heap].
    + exists []. rewrite (pending_nil _ _ Hpend). split_and!; [done..|constructor].
    + destruct (heappop_least (x :: heap)) as ([rec i] & heap' & _ & Hs & Hperm & _);
        [apply Hpend|done|].
      destruct (pending_step _ _ _ _ _ _ Hpend Hs Hperm) as (f & tl & _ & Hi & _).
      rewrite (concat_insert_tail _ _ _ _ Hi) in Hfuel. simpl in Hfuel. lia.
  - destruct heap as [|x heap].
    + exists []. rewrite (pending_nil _ _ Hpend). split_and!; [done..|constructor].
    + destruct (heappop_least (x :: heap))
        as ([rec i] & heap' & Hpop & Hs & Hperm & Hmin); [apply Hpend|done|].
      destruct (pending_step _ _ _ _ _ _ Hpend Hs Hperm)
        as (f & tl & Hf & Hi & Hft & Hnext).
      pose proof (concat_insert_tail _ _ _ _ Hi) as Hjoin.
      destruct (IH _ _ _ Hnext) as (out & Hrun & Hout & Hsorted).
      { rewrite Hjoin in Hfuel. simpl in Hfuel. lia. }
      exists (rec :: out). split_and!.
      * intros St emit acc. cbn [kway_loop]. rewrite Hpop, Hf. apply Hrun.
      * by rewrite Hjoin, Hout.
      * intros Hall. constructor.
        -- apply Hsorted. apply Forall_insert; [done|].
           eapply Forall_lookup in Hall; [|exact Hi].
           by apply StronglySorted_cons in Hall as [_ ?].
        -- rewrite Hout. by eapply pending_sorted_min.
Qed.

Lemma records_head (f r : bytes) tl :
  records f = r :: tl ↔ f ≠ [] ∧ r = take RECORD_SIZE f ∧ tl = records (drop RECORD_SIZE f).
Proof.
  destruct (decide (f = [])) as [->|Hf].
  - rewrite records_nil. split; [done|by intros [? _]].
  - rewrite (records_step _ Hf). split; [by intros [= <- <-]|by intros (_ & -> & ->)].
Qed.

Lemma records_tail (f : bytes) : records (drop RECORD_SIZE f) = tail (records f).
Proof.
  destruct (decide (f = [])) as [->|Hf]; [done|]. by rewrite (records_step _ Hf).
Qed.

Lemma read_first_records_rest i0 handles :
  (read_first_records i0 handles).2 = drop RECORD_SIZE <$> handles.
Proof.
  revert i0. induction handles as [|f handles IH]; intros i0; simpl; [done|].
  specialize (IH (S i0)). destruct (read_first_records (S i0) handles).
  simpl in *. by rewrite IH.
Qed.

Lemma read_first_records_heap i0 handles r i :
  (r, i) ∈ (read_first_records i0 handles).1 ↔
  i0 ≤ i ∧ ∃ f, handles !! (i - i0) = Some f ∧ f ≠ [] ∧ r = take RECORD_SIZE f.
Proof.
  revert i0. induction handles as [|f handles IH]; intros i0; simpl.
  - split; [by intros ?%elem_of_nil|by intros (_ & ? & ? & _)].
  - specialize (IH (S i0)). destruct (read_first_records (S i0) handles) as [heap rest].
    simpl in *.
    assert ((r, i) ∈ heap ↔
            i0 < i ∧ ∃ f', (f :: handles) !! (i - i0) = Some f' ∧ f' ≠ [] ∧
                           r = take RECORD_SIZE f') as IH'.
    { rewrite IH. split.
      - intros (Hi & f' & Hf' & ?). split; [lia|]. exists f'.
        by replace (i - i0) with (S (i - S i0)) by lia.
      - intros (Hi & f' & Hf' & ?). split; [lia|]. exists f'.
        by replace (i - i0) with (S (i - S i0)) in Hf' by lia. }
    clear IH. case_bool_decide as Hrec.
    + apply take_record_nil in Hrec as ->. rewrite IH'. split.
      * intros [? ?]. split; [lia|done].
      * intros (Hi & f' & Hf' & Hne & ?).
        destruct (decide (i = i0)) as [->|]; [|split; [lia|eauto]].
        rewrite Nat.sub_diag in Hf'. by simplify_eq/=.
    + rewrite elem_of_cons, IH'. split.
      * intros [[= -> ->]|[? ?]]; [|split; [lia|done]].
        split; [done|]. exists f. rewrite Nat.sub_diag.
        split_and!; [done| |done]. by intros ->.
      * intros (Hi & f' & Hf' & Hne & ->).
        destruct (decide (i = i0)) as [->|]; [|right; split; [lia|eauto]].
        rewrite Nat.sub_diag in Hf'. left. by simplify_eq/=.
Qed.

Lemma read_first_records_NoDup i0 handles :
  NoDup (read_first_records i0 handles).1.*2.
Proof.
  revert i0. induction handles as [|f handles IH]; intros i0; simpl; [constructor|].
  pose proof (read_first_records_heap (S i0) handles) as Hin.
  specialize (IH (S i0)). destruct (read_first_records (S i0) handles) as [heap rest].
  simpl in *. case_bool_decide; [done|].
  rewrite fmap_cons. apply NoDup_cons. split; [|done]. simpl.
  intros ([r i] & -> & Hr)%list_elem_of_fmap. apply Hin in Hr as [? _]. simpl in *. lia.
Qed.

Lemma pending_start handles :
  pending (heapify (read_first_records 0 handles).1)
          (read_first_records 0 handles).2 (records <$> handles).
Proof.
  split_and!.
  - apply heapify_is_heap.
  - rewrite heapify_perm. apply read_first_records_NoDup.
  - rewrite read_first_records_rest. apply Forall2_fmap, Forall_Forall2_diag.
    apply Forall_forall. intros f _. apply records_tail.
  - intros r i. rewrite heapify_perm, read_first_records_heap, Nat.sub_0_r.
    rewrite list_lookup_fmap. split.
    + intros (_ & f & -> & Hf & ->). eexists. simpl. f_equal.
      by apply records_head.
    + intros (tl & Hi). split; [lia|].
      destruct (handles !! i) as [f|]; [|done]. simpl in Hi.
      injection Hi as Hi. apply records_head in Hi as (? & ? & _). eauto.
Qed.

Lemma records_total_length (handles : list bytes) :
  length (mjoin (records <$> handles)) ≤ length (mjoin handles).
Proof.
  induction handles as [|f handles IH]; [done|].
  rewrite fmap_cons, !mjoin_cons, !length_app.
  pose proof (records_length_le f). lia.
Qed.

Lemma kway_spec handles :
  ∃ out,
    (∀ St (emit : St → bytes → St) init,
       kway emit handles init = Ok (foldl emit init out)) ∧
    out ≡ₚ mjoin (records <$> handles) ∧
    (Forall (λ f, StronglySorted lexle (records f)) handles →
     StronglySorted lexle out).
Proof.
  destruct (kway_loop_spec (length (mjoin handles)) _ _ _ (pending_start handles))
    as (out & Hrun & Hperm & Hsorted); [apply records_total_length|].
  exists out. split_and!; [|done|].
  - intros St emit init. unfold kway.
    specialize (Hrun St emit init).
    by destruct (read_first_records 0 handles).
  - intros Hall. apply Hsorted. by apply Forall_fmap.
Qed.

Lemma foldl_snoc {A} (l acc : list A) : foldl (λ acc x, acc ++ [x]) acc l = acc ++ l.
Proof.
  revert acc. induction l as [|x l IH]; intros acc; simpl.
  - by rewrite app_nil_r.
  - by rewrite IH, <-app_assoc.
Qed.

Lemma kway_merged {St} (emit : St → bytes → St) handles init :
  kway emit handles init = Ok (foldl emit init (merged handles)).
Proof.
  destruct (kway_spec handles) as (out & Hrun & _).
  unfold merged. by rewrite !Hrun, foldl_snoc.
Qed.

Lemma merged_perm handles : merged handles ≡ₚ mjoin (records <$> handles).
Proof.
  destruct (kway_spec handles) as (out & Hrun & Hperm & _).
  unfold merged. by rewrite Hrun, foldl_snoc.
Qed.

Lemma merged_nil : merged [] = [].
Proof. apply Permutation_nil_r, merged_perm. Qed.

Lemma merged_sorted handles :
  Forall (λ f, StronglySorted lexle (records f)) handles →
  StronglySorted lexle (merged handles).
Proof.
  destruct (kway_spec handles) as (out & Hrun & _ & Hsorted).
  unfold merged. rewrite Hrun, foldl_snoc. exact Hsorted.
Qed.

(** ** Counting neighbours that differ *)

Lemma distinct_count_remove_dups keys :
  distinct_count keys = length (remove_dups keys).
Proof.
  unfold distinct_count.
  rewrite <-(size_list_to_set (C:=gset bytes)) by apply NoDup_remove_dups.
  f_equal. apply leibniz_equiv. intros x.
  by rewrite !elem_of_list_to_set, elem_of_remove_dups.
Qed.

Lemma distinct_count_same_set keys keys' :
  (∀ k, k ∈ keys' ↔ k ∈ keys) → distinct_count keys' = distinct_count keys.
Proof.
  intros Hsame. unfold distinct_count. f_equal. apply leibniz_equiv. intros k.
  by rewrite !elem_of_list_to_set.
Qed.

Lemma distinct_count_perm keys keys' :
  keys ≡ₚ keys' → distinct_count keys = distinct_count keys'.
Proof. intros Hp. unfold distinct_count. by rewrite Hp. Qed.

Lemma remove_dups_cons {A} `{EqDecision A} (x : A) (l : list A) :
  remove_dups (x :: l) =
  if decide (x ∈ l) then remove_dups l else x :: remove_dups l.
Proof. done. Qed.

Lemma count_step_from (l : list bytes) p u :
  StronglySorted lexle (p :: l) →
  (foldl count_step (Some p, u) l).2 + 1 = u + length (remove_dups (p :: l)).
Proof.
  revert p u. induction l as [|x l IH]; intros p u Hs.
  - simpl. lia.
  - apply StronglySorted_cons in Hs as [Hp Hs].
    apply Forall_cons in Hp as [Hpx Hp].
    cbn [foldl count_step]. case_bool_decide as Hne.
    + rewrite (IH x (S u) Hs).
      assert (p ∉ x :: l) as Hnotin.
      { intros Hin. apply Hne. f_equal. apply (anti_symm lexle); [done|].
        apply elem_of_cons in Hin as [->|Hin]; [done|].
        apply StronglySorted_cons in Hs as [Hx _].
        by eapply Forall_forall in Hx. }
      rewrite (remove_dups_cons p), decide_False by done. simpl. lia.
    + assert (p = x) as <- by congruence.
      rewrite (IH p u Hs).
      by rewrite (remove_dups_cons p (p :: l)), decide_True by left.
Qed.

Lemma count_step_sorted (l : list bytes) :
  StronglySorted lexle l →
  (foldl count_step (None, 0) l).2 = distinct_count l.
Proof.
  intros Hs. rewrite distinct_count_remove_dups.
  destruct l as [|p l]; [done|].
  cbn [foldl count_step]. rewrite bool_decide_true by done.
  pose proof (count_step_from l p 1 Hs). lia.
Qed.

Lemma foldl_app_records (l : list bytes) (acc : bytes) :
  foldl (λ out rec, out ++ rec) acc l = acc ++ mjoin l.
Proof.
  revert acc. induction l as [|x l IH]; intros acc; simpl.
  - by rewrite app_nil_r.
  - by rewrite IH, <-app_assoc.
Qed.

(** ** File names *)

Lemma append_cons a s t : String a s +:+ t = String a (s +:+ t).
Proof. done. Qed.

Lemma append_nil_l t : "" +:+ t = t.
Proof. done. Qed.

Lemma append_nil_r s : s +:+ "" = s.
Proof. induction s as [|a s IH]; [done|]. by rewrite append_cons, IH. Qed.

Lemma append_assoc s t u : (s +:+ t) +:+ u = s +:+ t +:+ u.
Proof. induction s as [|a s IH]; [done|]. by rewrite !append_cons, IH. Qed.

Lemma prefix_append s t : String.prefix s (s +:+ t) = true.
Proof.
  induction s as [|a s IH]; [by destruct t|].
  rewrite append_cons. simpl. by destruct (Ascii.ascii_dec a a).
Qed.

Lemma of_uint_pad_zeros k d : Nat.of_uint (pad_zeros k d) = Nat.of_uint d.
Proof. induction k as [|k IH]; [done|]. simpl. rewrite <-IH. done. Qed.

Lemma fmt_d_inj width n m : fmt_d width n = fmt_d width m → n = m.
Proof.
  unfold fmt_d. intros E.
  apply (f_equal NilEmpty.uint_of_string) in E. rewrite !NilEmpty.usu in E.
  injection E as E. apply (f_equal Nat.of_uint) in E.
  by rewrite !of_uint_pad_zeros, !Unsigned.of_to in E.
Qed.

(** Decimal digits up to a character that is no digit: the text splits in
    one way only. *)
Lemma digits_split c d d' t t' :
  is_digit c = false →
  NilEmpty.string_of_uint d +:+ String c t =
  NilEmpty.string_of_uint d' +:+ String c t' →
  d = d' ∧ t = t'.
Proof.
  intros Hc. revert d'.
  induction d as [|d IH|d IH|d IH|d IH|d IH|d IH|d IH|d IH|d IH|d IH];
    intros [|d'|d'|d'|d'|d'|d'|d'|d'|d'|d']; simpl;
    rewrite ?append_cons, ?append_nil_l; intros E;
    try (injection E as E; destruct (IH _ E) as [-> ->]; done);
    try (injection E as -> _; done);
    try (injection E as <- _; done);
    try done.
  by injection E as ->.
Qed.

Lemma fmt_d_split c width n m t t' :
  is_digit c = false →
  fmt_d width n +:+ String c t = fmt_d width m +:+ String c t' →
  n = m ∧ t = t'.
Proof.
  intros Hc E. unfold fmt_d in E.
  destruct (digits_split _ _ _ _ _ Hc E) as [E' ->]. split; [|done].
  apply (f_equal Nat.of_uint) in E'.
  by rewrite !of_uint_pad_zeros, !Unsigned.of_to in E'.
Qed.

Lemma run_name_inj i j : run_name i = run_name j → i = j.
Proof.
  unfold run_name. intros E. apply (inj (String.app "run_")) in E.
  by destruct (fmt_d_split "."%char _ _ _ _ _ eq_refl E).
Qed.

Lemma merge_name_inj l b l' b' :
  merge_name l b = merge_name l' b' → l = l' ∧ b = b'.
Proof.
  unfold merge_name. intros E. apply (inj (String.app "merge_")) in E.
  destruct (fmt_d_split "_"%char _ _ _ _ _ eq_refl E) as [-> E'].
  by destruct (fmt_d_split "."%char _ _ _ _ _ eq_refl E').
Qed.

Lemma run_name_merge_name i l b : run_name i ≠ merge_name l b.
Proof. done. Qed.

Lemma path_join_name d b :
  startswith_sep b = false → path_join d b = dir_prefix d +:+ b.
Proof.
  unfold path_join, dir_prefix. intros ->.
  destruct (bool_decide (d = "") || endswith_sep d); [done|].
  by rewrite append_assoc.
Qed.

Lemma path_join_inj d b b' :
  startswith_sep b = false → startswith_sep b' = false →
  path_join d b = path_join d b' → b = b'.
Proof.
  intros Hb Hb'. rewrite !path_join_name by done. apply (inj (String.app _)).
Qed.

Lemma in_dir_path_join d b : startswith_sep b = false → in_dir d (path_join d b) = true.
Proof.
  intros Hb. unfold in_dir. rewrite !path_join_name by done.
  rewrite append_nil_r. apply prefix_append.
Qed.

Lemma run_path_inj d i j : run_path d i = run_path d j → i = j.
Proof. intros E. by apply path_join_inj, run_name_inj in E. Qed.

Lemma merge_path_inj d l b l' b' :
  merge_path d l b = merge_path d l' b' → l = l' ∧ b = b'.
Proof. intros E. by apply path_join_inj, merge_name_inj in E. Qed.

Lemma run_path_merge_path d i l b : run_path d i ≠ merge_path d l b.
Proof. intros E. by apply path_join_inj, run_name_merge_name in E. Qed.

Lemma in_dir_run_path d i : in_dir d (run_path d i) = true.
Proof. by apply in_dir_path_join. Qed.

Lemma in_dir_merge_path d l b : in_dir d (merge_path d l b) = true.
Proof. by apply in_dir_path_join. Qed.

(** ** Running the monad *)

Lemma bind_Ok {A B} (m : M A) (k : A → M B) w a w' :
  m w = (Ok a, w') → bind m k w = k a w'.
Proof. unfold bind. by intros ->. Qed.

Lemma bind_Raise {A B} (m : M A) (k : A → M B) w e w' :
  m w = (Raise e, w') → bind m k w = (Raise e, w').
Proof. unfold bind. by intros ->. Qed.

Lemma bind_Timeout {A B} (m : M A) (k : A → M B) w w' :
  m w = (Timeout, w') → bind m k w = (Timeout, w').
Proof. unfold bind. by intros ->. Qed.

Lemma _open_runs_ok run_paths cs w :
  holds (files w) run_paths cs →
  ∃ w', _open_runs run_paths w = (Ok cs, w') ∧
        files w' = files w ∧ stdout w' = stdout w.
Proof.
  intros Hh. revert cs w Hh. unfold holds.
  induction run_paths as [|p run_paths IH]; intros cs w Hh.
  - apply Forall2_nil_inv_l in Hh as ->. by exists w.
  - apply Forall2_cons_inv_l in Hh as (c & cs' & Hp & Hh & ->).
    cbn [_open_runs]. unfold bind at 1, open_rb. rewrite Hp.
    destruct (IH cs' (World (files w) (p :: opened w) (stdout w)) Hh)
      as (w' & Hrun & Hfiles & Hout).
    exists w'. by rewrite (bind_Ok _ _ _ _ _ Hrun).
Qed.

Lemma _open_runs_missing run_paths w :
  ¬ Forall (λ p, is_Some (files w !! p)) run_paths →
  ∃ p w', p ∈ run_paths ∧ files w !! p = None ∧
          _open_runs run_paths w = (Raise (FileNotFoundError p), w') ∧
          files w' = files w ∧ stdout w' = stdout w.
Proof.
  revert w. induction run_paths as [|p run_paths IH]; intros w Hmiss.
  - destruct Hmiss. constructor.
  - cbn [_open_runs]. unfold bind at 1, open_rb.
    destruct (files w !! p) as [c|] eqn:Hp.
    + destruct (IH (World (files w) (p :: opened w) (stdout w)))
        as (q & w' & Hq & Hnone & Hrun & Hfiles & Hout).
      { intros Hall. apply Hmiss. constructor; [by rewrite Hp|done]. }
      exists q, w'. rewrite (bind_Raise _ _ _ _ _ Hrun).
      split_and!; [by right|done..].
    + exists p, w. split_and!; [by left|done..].
Qed.

Lemma merge_runs_to_file_ok run_paths out_path cs w :
  holds (files w) run_paths cs →
  ∃ w', merge_runs_to_file run_paths out_path w = (Ok tt, w') ∧
        files w' = <[out_path := mjoin (merged cs)]> (files w) ∧
        stdout w' = stdout w.
Proof.
  intros Hh. destruct (_open_runs_ok _ _ _ Hh) as (w1 & Hopen & Hfiles & Hout).
  unfold merge_runs_to_file. rewrite (bind_Ok _ _ _ _ _ Hopen).
  unfold bind, lift. rewrite kway_merged, foldl_app_records. simpl.
  eexists. split; [done|]. simpl. by rewrite Hfiles, Hout.
Qed.

Lemma count_unique_across_runs_ok run_paths cs w :
  holds (files w) run_paths cs →
  ∃ w', count_unique_across_runs run_paths w =
          (Ok (foldl count_step (None, 0) (merged cs)).2, w') ∧
        files w' = files w ∧ stdout w' = stdout w.
Proof.
  intros Hh. unfold count_unique_across_runs. case_bool_decide as Hnil.
  - subst. apply Forall2_nil_inv_l in Hh as ->. rewrite merged_nil. by exists w.
  - destruct (_open_runs_ok _ _ _ Hh) as (w1 & Hopen & Hfiles & Hout).
    rewrite (bind_Ok _ _ _ _ _ Hopen). unfold bind, lift.
    rewrite kway_merged. by exists w1.
Qed.

Lemma remove_batch_ok batch w :
  ∃ w', remove_batch batch w = (Ok tt, w') ∧
        (∀ q, q ∈ batch → files w' !! q = None) ∧
        (∀ q, q ∉ batch → files w' !! q = files w !! q) ∧
        stdout w' = stdout w.
Proof.
  revert w. induction batch as [|p batch IH]; intros w.
  - exists w. split_and!; [done| |done..]. by intros q ?%elem_of_nil.
  - cbn [remove_batch].
    assert (∃ w1, except_FileNotFoundError_pass (os_remove p) w = (Ok tt, w1) ∧
                  files w1 = delete p (files w) ∧ stdout w1 = stdout w)
      as (w1 & Hrm & Hfiles & Hout).
    { unfold except_FileNotFoundError_pass, os_remove.
      destruct (files w !! p) eqn:Hp; eexists; (split; [done|]); simpl.
      - done.
      - by rewrite delete_id. }
    rewrite (bind_Ok _ _ _ _ _ Hrm).
    destruct (IH w1) as (w' & Hrun & Hin & Hnotin & Hout').
    exists w'. split_and!; [done| | |congruence].
    + intros q [->|Hq]%elem_of_cons; [|by apply Hin].
      destruct (decide (p ∈ batch)); [by apply Hin|].
      by rewrite Hnotin, Hfiles, lookup_delete_eq.
    + intros q [Hne Hq]%not_elem_of_cons.
      by rewrite Hnotin, Hfiles, lookup_delete_ne.
Qed.

(** ** One pass of the reducer *)

Lemma holds_agree fs fs' paths cs :
  (∀ p, p ∈ paths → fs' !! p = fs !! p) →
  holds fs paths cs → holds fs' paths cs.
Proof.
  unfold holds. intros Hagree Hh. induction Hh as [|p c paths cs Hp _ IH].
  - constructor.
  - constructor.
    + rewrite Hagree; [done|left].
    + apply IH. intros q Hq. apply Hagree. by right.
Qed.

Lemma merge_batches_chunks f tmp_dir level runs fuel k new_runs w :
  0 < f → length runs ≤ (k + fuel) * f →
  merge_batches (range_from fuel (k * f) (length runs) f) runs tmp_dir f level
    new_runs w =
  pass_batches (chunks f (drop (k * f) runs)) tmp_dir level k new_runs w.
Proof.
  intros Hf. revert k new_runs w.
  induction fuel as [|fuel IH]; intros k new_runs w Hlen.
  - rewrite drop_ge by lia. done.
  - cbn [range_from]. case_decide as Hlt.
    + assert (drop (k * f) runs ≠ []) as Hne.
      { intros Hnil%(f_equal length). rewrite length_drop in Hnil.
        simpl in Hnil. lia. }
      rewrite (chunks_step f Hf _ Hne), drop_drop.
      cbn [merge_batches pass_batches]. rewrite Nat.div_mul by lia.
      fold (merge_path tmp_dir level k). unfold bind.
      destruct (merge_runs_to_file _ _ w) as [[[]| |] w1]; [|done..].
      destruct (remove_batch _ w1) as [[[]| |] w2]; [|done..].
      replace (k * f + f) with (S k * f) by lia. apply IH. lia.
    + rewrite drop_ge by lia. done.
Qed.

Lemma pass_batches_ok tmp_dir level bs css k new_runs w :
  Forall2 (holds (files w)) bs css →
  NoDup (mjoin bs) →
  (∀ p j, p ∈ mjoin bs → p ≠ merge_path tmp_dir level j) →
  ∃ w',
    pass_batches bs tmp_dir level k new_runs w =
      (Ok (new_runs ++ (merge_path tmp_dir level <$> seq k (length bs))), w') ∧
    holds (files w') (merge_path tmp_dir level <$> seq k (length bs))
          ((λ cs, mjoin (merged cs)) <$> css) ∧
    (∀ p, p ∈ mjoin bs → files w' !! p = None) ∧
    (∀ p, p ∉ mjoin bs →
          (∀ j, k ≤ j < k + length bs → p ≠ merge_path tmp_dir level j) →
          files w' !! p = files w !! p) ∧
    stdout w' = stdout w.
Proof.
  revert css k new_runs w.
  induction bs as [|b bs IH]; intros css k new_runs w Hh Hnd Hclash.
  - apply Forall2_nil_inv_l in Hh as ->.
    exists w. rewrite app_nil_r. split_and!; [done|constructor| |done..].
    by intros p ?%elem_of_nil.
  - apply Forall2_cons_inv_l in Hh as (cs & css' & Hb & Hbs & ->).
    rewrite mjoin_cons in Hnd, Hclash.
    apply NoDup_app in Hnd as (Hndb & Hdisj & Hndbs).
    set (mp := merge_path tmp_dir level k).
    destruct (merge_runs_to_file_ok b mp cs w Hb) as (w1 & Hmerge & Hf1 & Ho1).
    destruct (remove_batch_ok b w1) as (w2 & Hrm & Hin2 & Hnotin2 & Ho2).
    assert (mp ∉ b) as Hmpb.
    { intros Hin. eapply Hclash; [|done]. apply elem_of_app. by left. }
    assert (mp ∉ mjoin bs) as Hmpbs.
    { intros Hin. eapply Hclash; [|done]. apply elem_of_app. by right. }
    assert (∀ p, p ∈ mjoin bs → files w2 !! p = files w !! p) as Hkeep.
    { intros p Hp. rewrite Hnotin2 by (intros ?; by eapply Hdisj).
      rewrite Hf1, lookup_insert_ne; [done|]. by intros <-. }
    destruct (IH css' (S k) (new_runs ++ [mp]) w2)
      as (w' & Hrun & Hh' & Hin' & Hnotin' & Ho'); [|done|..].
    { clear -Hbs Hkeep. induction Hbs as [|b' cs' bs css' Hb' _ IH']; [constructor|].
      rewrite mjoin_cons in Hkeep. constructor.
      - eapply holds_agree; [|done]. intros p Hp. apply Hkeep, elem_of_app. by left.
      - apply IH'. intros p Hp. apply Hkeep, elem_of_app. by right. }
    { intros p j Hp. apply Hclash, elem_of_app. by right. }
    assert (files w' !! mp = Some (mjoin (merged cs))) as Hmp.
    { rewrite Hnotin'; [|done|].
      - by rewrite Hnotin2, Hf1, lookup_insert_eq.
      - intros j Hj [_ E]%merge_path_inj. lia. }
    exists w'. cbn [pass_batches]. fold mp.
    rewrite (bind_Ok _ _ _ _ _ Hmerge), (bind_Ok _ _ _ _ _ Hrm), Hrun.
    cbn [length seq fmap list_fmap]. rewrite <-app_assoc.
    split_and!; [done| | | |congruence].
    + by constructor.
    + intros p [Hp|Hp]%elem_of_app; [|by apply Hin'].
      destruct (decide (p ∈ mjoin bs)); [by apply Hin'|].
      rewrite Hnotin'; [by apply Hin2|done|].
      intros j _. apply Hclash, elem_of_app. by left.
    + intros p [Hpb Hpbs]%not_elem_of_app Hj.
      simpl in Hj. rewrite Hnotin'; [|done|intros j ?; apply Hj; lia].
      rewrite Hnotin2 by done. rewrite Hf1, lookup_insert_ne; [done|].
      intros E. apply (Hj k); [lia|]. by rewrite <-E.
Qed.

Lemma Forall_mjoin_inv {A} (P : A → Prop) (ls : list (list A)) :
  Forall P (mjoin ls) → Forall (Forall P) ls.
Proof.
  induction ls as [|l ls IH]; [constructor|].
  rewrite mjoin_cons, Forall_app. intros [? ?]. constructor; auto.
Qed.

Lemma Forall_chunks {A} (P : A → Prop) size (l : list A) :
  0 < size → Forall P l → Forall (Forall P) (chunks size l).
Proof. intros Hs Hl. apply Forall_mjoin_inv. by rewrite mjoin_chunks. Qed.

Lemma chunks_fmap {A B} (g : A → B) size (l : list A) :
  0 < size → chunks size (g <$> l) = fmap (M:=list) g <$> chunks size l.
Proof.
  intros Hs. induction l as [|l Hl IH] using (chunks_ind size Hs); [done|].
  rewrite (chunks_step size Hs l Hl), fmap_cons, chunks_step; [|done|].
  - by rewrite <-fmap_take, <-fmap_drop, IH.
  - by destruct l.
Qed.

Lemma mjoin_mjoin {A} (ls : list (list (list A))) :
  mjoin (mjoin (M:=list) <$> ls) = mjoin (mjoin ls).
Proof.
  induction ls as [|l ls IH]; [done|].
  by rewrite fmap_cons, !mjoin_cons, join_app, IH.
Qed.

Lemma records_of_batch (batch : list (list bytes)) :
  record_sized batch → records <$> (flat <$> batch) = batch.
Proof.
  induction 1 as [|r batch Hr _ IH]; [done|].
  by rewrite !fmap_cons, records_concat, IH.
Qed.

Lemma merged_batch_perm batch :
  record_sized batch → merged (flat <$> batch) ≡ₚ mjoin batch.
Proof. intros Hb. by rewrite merged_perm, records_of_batch. Qed.

Lemma merged_batch_sized batch :
  record_sized batch →
  Forall (λ r, length r = RECORD_SIZE) (merged (flat <$> batch)).
Proof. intros Hb. rewrite merged_batch_perm by done. by apply Forall_join. Qed.

Lemma merged_batch_sorted batch :
  record_sized batch → Forall (StronglySorted lexle) batch →
  StronglySorted lexle (merged (flat <$> batch)).
Proof.
  intros Hb Hs. apply merged_sorted. rewrite <-(records_of_batch batch Hb) in Hs.
  by rewrite Forall_fmap in Hs.
Qed.

Lemma pass_records_length f recs :
  length (pass_records f recs) = length (chunks f recs).
Proof. unfold pass_records. by rewrite length_fmap. Qed.

Lemma pass_records_perm f recs :
  0 < f → record_sized recs → mjoin (pass_records f recs) ≡ₚ mjoin recs.
Proof.
  intros Hf Hrecs. rewrite <-(mjoin_chunks f Hf recs) at 2.
  rewrite <-mjoin_mjoin. unfold pass_records.
  pose proof (Forall_chunks _ f recs Hf Hrecs) as Hall.
  induction Hall as [|b bs Hb _ IH]; [done|].
  by rewrite !fmap_cons, !mjoin_cons, IH, merged_batch_perm.
Qed.

Lemma pass_records_sized f recs :
  0 < f → record_sized recs → record_sized (pass_records f recs).
Proof.
  intros Hf Hrecs. unfold record_sized, pass_records. rewrite Forall_fmap.
  eapply Forall_impl; [apply (Forall_chunks _ f recs Hf Hrecs)|].
  intros b Hb. by apply merged_batch_sized.
Qed.

Lemma pass_records_sorted f recs :
  0 < f → record_sized recs → Forall (StronglySorted lexle) recs →
  Forall (StronglySorted lexle) (pass_records f recs).
Proof.
  intros Hf Hrecs Hs. unfold pass_records. rewrite Forall_fmap.
  pose proof (Forall_chunks _ f recs Hf Hrecs) as H1.
  pose proof (Forall_chunks _ f recs Hf Hs) as H2.
  induction H1 as [|b bs Hb _ IH]; [constructor|].
  apply Forall_cons in H2 as [? ?]. constructor; [|by apply IH].
  by apply merged_batch_sorted.
Qed.

Lemma merge_batches_ok tmp_dir f level runs recs w :
  0 < f →
  holds (files w) runs (flat <$> recs) →
  NoDup runs →
  (∀ p j, p ∈ runs → p ≠ merge_path tmp_dir level j) →
  ∃ w',
    merge_batches (range_from (length runs) 0 (length runs) f) runs tmp_dir f
      level [] w =
      (Ok (merge_path tmp_dir level <$> seq 0 (length (chunks f runs))), w') ∧
    holds (files w')
      (merge_path tmp_dir level <$> seq 0 (length (chunks f runs)))
      (flat <$> pass_records f recs) ∧
    (∀ p, p ∈ runs → files w' !! p = None) ∧
    (∀ p, p ∉ runs →
          (∀ j, j < length (chunks f runs) → p ≠ merge_path tmp_dir level j) →
          files w' !! p = files w !! p) ∧
    stdout w' = stdout w.
Proof.
  intros Hf Hh Hnd Hclash.
  pose proof (merge_batches_chunks f tmp_dir level runs (length runs) 0 [] w Hf)
    as Heq.
  rewrite Nat.mul_0_l, drop_0 in Heq. rewrite Heq by (simpl; nia). clear Heq.
  destruct (pass_batches_ok tmp_dir level (chunks f runs)
              (chunks f (flat <$> recs)) 0 [] w)
    as (w' & Hrun & Hh' & Hin & Hnotin & Hout).
  - by apply chunks_Forall2.
  - by rewrite mjoin_chunks.
  - intros p j. rewrite mjoin_chunks by done. apply Hclash.
  - rewrite mjoin_chunks in Hin, Hnotin by done.
    exists w'. split_and!; [done| |done| |done].
    + unfold pass_records. rewrite chunks_fmap in Hh' by done.
      by rewrite <-!list_fmap_compose in *.
    + intros p Hp Hj. apply Hnotin; [done|]. intros j ?. apply Hj. lia.
Qed.

(** ** The reducer *)

Lemma merge_paths_NoDup tmp_dir level n :
  NoDup (merge_path tmp_dir level <$> seq 0 n).
Proof.
  apply NoDup_fmap_2; [|apply NoDup_seq].
  intros j j' E. by apply merge_path_inj in E as [_ ?].
Qed.

Lemma merge_paths_no_clash tmp_dir level n :
  no_clash tmp_dir (S level) (merge_path tmp_dir level <$> seq 0 n).
Proof.
  intros p l j (j' & -> & _)%list_elem_of_fmap Hl [E _]%merge_path_inj. lia.
Qed.

Lemma py_range_pos stop step w :
  (0 < step)%Z → py_range stop step w = (Ok (range_from stop 0 stop (Z.to_nat step)), w).
Proof.
  intros Hs. unfold py_range.
  rewrite bool_decide_false by lia. by rewrite bool_decide_false by lia.
Qed.

Lemma reduce_pass_ok tmp_dir fan_in level runs recs w :
  (1 ≤ fan_in)%Z →
  holds (files w) runs (flat <$> recs) →
  NoDup runs →
  (∀ p j, p ∈ runs → p ≠ merge_path tmp_dir level j) →
  let f := Z.to_nat fan_in in
  ∃ w',
    reduce_pass runs tmp_dir fan_in level w =
      (Ok (merge_path tmp_dir level <$> seq 0 (length (chunks f runs))), w') ∧
    holds (files w')
      (merge_path tmp_dir level <$> seq 0 (length (chunks f runs)))
      (flat <$> pass_records f recs) ∧
    (∀ p, p ∈ runs → files w' !! p = None) ∧
    (∀ p, p ∉ runs →
          (∀ j, j < length (chunks f runs) → p ≠ merge_path tmp_dir level j) →
          files w' !! p = files w !! p) ∧
    stdout w' = stdout w.
Proof.
  intros Hfan Hh Hnd Hclash f. unfold reduce_pass.
  rewrite (bind_Ok _ _ _ _ _ (py_range_pos (length runs) fan_in w ltac:(lia))).
  apply merge_batches_ok; [lia|done..].
Qed.

Lemma reduce_loop_ok tmp_dir fan_in fuel level runs recs w :
  (2 ≤ fan_in)%Z →
  length runs ≤ fuel →
  holds (files w) runs (flat <$> recs) →
  NoDup runs →
  record_sized recs →
  no_clash tmp_dir level runs →
  ∃ w' runs' recs',
    reduce_loop fuel runs tmp_dir fan_in level w = (Ok runs', w') ∧
    holds (files w') runs' (flat <$> recs') ∧
    NoDup runs' ∧
    record_sized recs' ∧
    mjoin recs' ≡ₚ mjoin recs ∧
    (Forall (StronglySorted lexle) recs → Forall (StronglySorted lexle) recs') ∧
    (Z.of_nat (length runs') ≤ fan_in)%Z ∧
    stdout w' = stdout w.
Proof.
  intros Hfan. revert level runs recs w.
  induction fuel as [|fuel IH]; intros level runs recs w Hfuel Hh Hnd Hsz Hclash.
  - exists w, runs, recs. cbn [reduce_loop].
    rewrite bool_decide_false by lia. split_and!; [done..|lia|done].
  - cbn [reduce_loop]. case_bool_decide as Hgt.
    + set (f := Z.to_nat fan_in).
      assert (2 ≤ f) as Hf by lia.
      destruct (reduce_pass_ok tmp_dir fan_in level runs recs w) as
        (w1 & Hpass & Hh1 & _ & _ & Hout1); [lia|done|done| |].
      { intros p j Hp. by apply (Hclash p level j). }
      rewrite (bind_Ok _ _ _ _ _ Hpass).
      destruct (IH (S level)
                  (merge_path tmp_dir level <$> seq 0 (length (chunks f runs)))
                  (pass_records f recs) w1)
        as (w' & runs' & recs' & Hrun & Hh' & Hnd' & Hsz' & Hperm & Hsort & Hlen & Hout').
      * rewrite length_fmap, length_seq.
        pose proof (chunks_length_lt f ltac:(lia) runs Hf ltac:(lia)). lia.
      * done.
      * apply merge_paths_NoDup.
      * apply pass_records_sized; [lia|done].
      * apply merge_paths_no_clash.
      * exists w', runs', recs'. split_and!; [done..| | |done|congruence].
        -- rewrite Hperm. apply pass_records_perm; [lia|done].
        -- intros Hs. apply Hsort, pass_records_sorted; [lia|done..].
    + exists w, runs, recs. split_and!; [done..|lia|done].
Qed.

(** ** The run builder *)

Lemma flush_run_eq buf tmp_dir run_idx w :
  flush_run buf tmp_dir run_idx w =
  (Ok (run_path tmp_dir run_idx),
   World (<[run_path tmp_dir run_idx := flat (merge_sort lexle buf)]> (files w))
         (run_path tmp_dir run_idx :: opened w) (stdout w)).
Proof. done. Qed.

Lemma sort_sorted (buf : list bytes) : StronglySorted lexle (merge_sort lexle buf).
Proof. apply Sorted_StronglySorted; [apply _|]. apply Sorted_merge_sort, _. Qed.

Lemma run_paths_NoDup tmp_dir n : NoDup (run_path tmp_dir <$> seq 0 n).
Proof.
  apply NoDup_fmap_2; [|apply NoDup_seq]. intros i j. apply run_path_inj.
Qed.

Lemma run_paths_no_clash tmp_dir n :
  no_clash tmp_dir 0 (run_path tmp_dir <$> seq 0 n).
Proof.
  intros p l j (i & -> & _)%list_elem_of_fmap _. apply run_path_merge_path.
Qed.

Lemma run_path_fresh tmp_dir n : run_path tmp_dir n ∉ run_path tmp_dir <$> seq 0 n.
Proof.
  intros (i & E & Hi)%list_elem_of_fmap. apply run_path_inj in E as <-.
  apply elem_of_seq in Hi. lia.
Qed.

Lemma seq_snoc n : seq 0 (S n) = seq 0 n ++ [n].
Proof. by rewrite seq_S. Qed.

Section builder_facts.
Context (inet_pton6 : string → exn + bytes).

Lemma built_flush tmp_dir w runs run_idx recs buf :
  built tmp_dir w runs run_idx recs →
  Forall (λ r, length r = RECORD_SIZE) buf →
  built tmp_dir
    (World (<[run_path tmp_dir run_idx := flat (merge_sort lexle buf)]> (files w))
           (run_path tmp_dir run_idx :: opened w) (stdout w))
    (runs ++ [run_path tmp_dir run_idx]) (S run_idx)
    (recs ++ [merge_sort lexle buf]).
Proof.
  intros (-> & Hh & Hsz & Hs) Hbuf. split_and!.
  - by rewrite seq_snoc, fmap_app.
  - unfold holds. rewrite fmap_app. apply Forall2_app.
    + eapply holds_agree; [|done]. intros p Hp. simpl.
      rewrite lookup_insert_ne; [done|]. intros <-.
      by apply run_path_fresh in Hp.
    + constructor; [|constructor]. simpl. by rewrite lookup_insert_eq.
  - apply Forall_app. split; [done|]. constructor; [|constructor].
    by rewrite merge_sort_Permutation.
  - apply Forall_app. split; [done|]. constructor; [|constructor].
    apply sort_sorted.
Qed.

Hypothesis inet_pton6_length :
  ∀ s packed, inet_pton6 s = inr packed → length packed = RECORD_SIZE.

Lemma read_loop_ok lines tmp_dir chunk_records keys :
  encode_lines inet_pton6 lines = inr keys →
  ∀ runs buf run_idx recs w,
    built tmp_dir w runs run_idx recs →
    Forall (λ r, length r = RECORD_SIZE) buf →
    ∃ w' runs' buf' run_idx' recs',
      read_loop inet_pton6 lines tmp_dir chunk_records runs buf run_idx w =
        (Ok (runs', buf', run_idx'), w') ∧
      built tmp_dir w' runs' run_idx' recs' ∧
      Forall (λ r, length r = RECORD_SIZE) buf' ∧
      mjoin recs' ++ buf' ≡ₚ mjoin recs ++ buf ++ keys ∧
      run_idx' + length buf' ≤ run_idx + length buf + length keys ∧
      stdout w' = stdout w.
Proof.
  revert keys. induction lines as [|line lines IH]; intros keys Hkeys
    runs buf run_idx recs w Hbuilt Hbuf.
  - injection Hkeys as <-. exists w, runs, buf, run_idx, recs.
    rewrite !app_nil_r. split_and!; [done..|lia|done].
  - cbn [read_loop encode_lines] in *. case_bool_decide as Hblank.
    { by apply IH. }
    unfold ipv6_to_packed.
    destruct (inet_pton6 (strip line)) as [e|packed] eqn:Henc; [done|].
    destruct (encode_lines inet_pton6 lines) as [e|keys'] eqn:Hrest; [done|].
    injection Hkeys as <-.
    pose proof (inet_pton6_length _ _ Henc) as Hlen.
    unfold bind at 1, ret.
    assert (Forall (λ r, length r = RECORD_SIZE) (buf ++ [packed])) as Hbuf'.
    { apply Forall_app. split; [done|]. by constructor. }
    case_bool_decide as Hfull.
    + rewrite (bind_Ok _ _ _ _ _ (flush_run_eq _ _ _ _)).
      destruct (IH keys' eq_refl _ [] _ _ _
                  (built_flush _ _ _ _ _ _ Hbuilt Hbuf') ltac:(constructor))
        as (w' & runs' & buf' & idx' & recs' & Hrun & Hb' & Hbf' & Hperm & Hcnt & Hout).
      exists w', runs', buf', idx', recs'. split_and!; [done..| | |done].
      * rewrite Hperm, join_app. simpl. rewrite app_nil_r, merge_sort_Permutation.
        by rewrite <-!app_assoc.
      * rewrite length_app in *. simpl in *. lia.
    + destruct (IH keys' eq_refl runs (buf ++ [packed]) run_idx recs w Hbuilt Hbuf')
        as (w' & runs' & buf' & idx' & recs' & Hrun & Hb' & Hbf' & Hperm & Hcnt & Hout).
      exists w', runs', buf', idx', recs'. split_and!; [done..| | |done].
      * rewrite Hperm. by rewrite <-!app_assoc.
      * rewrite length_app in *. simpl in *. lia.
Qed.
End builder_facts.

(** ** The whole pipeline *)

Lemma read_text_lines_ok w input_path lines :
  input_lines w input_path = Some lines →
  read_text_lines input_path w =
  (Ok lines, World (files w) (input_path :: opened w) (stdout w)).
Proof.
  unfold input_lines, read_text_lines, bind, open_rb.
  destruct (files w !! input_path) as [c|]; [|done]. simpl.
  destruct (decode_ascii c); [|done]. by intros [= ->].
Qed.

Lemma encode_lines_length inet_pton6 lines keys :
  encode_lines inet_pton6 lines = inr keys → length keys ≤ length lines.
Proof.
  revert keys. induction lines as [|line lines IH]; intros keys; simpl.
  - intros [= <-]. done.
  - case_bool_decide.
    + intros ?%IH. lia.
    + destruct (inet_pton6 _); [done|].
      destruct (encode_lines _ _); [done|].
      intros [= <-]. specialize (IH _ eq_refl). simpl. lia.
Qed.

Section pipeline_facts.
Context (inet_pton6 : string → exn + bytes).
Hypothesis inet_pton6_length :
  ∀ s packed, inet_pton6 s = inr packed → length packed = RECORD_SIZE.

Lemma generate_initial_runs_ok w input_path tmp_dir chunk_records lines keys :
  input_lines w input_path = Some lines →
  encode_lines inet_pton6 lines = inr keys →
  ∃ w' run_idx recs,
    generate_initial_runs inet_pton6 input_path tmp_dir chunk_records w =
      (Ok (run_path tmp_dir <$> seq 0 run_idx), w') ∧
    holds (files w') (run_path tmp_dir <$> seq 0 run_idx) (flat <$> recs) ∧
    record_sized recs ∧
    Forall (StronglySorted lexle) recs ∧
    mjoin recs ≡ₚ keys ∧
    run_idx ≤ length keys ∧
    stdout w' = stdout w.
Proof.
  intros Hlines Hkeys. unfold generate_initial_runs.
  rewrite (bind_Ok _ _ _ _ _ (read_text_lines_ok _ _ _ Hlines)).
  destruct (read_loop_ok inet_pton6 inet_pton6_length lines tmp_dir
              chunk_records keys Hkeys [] [] 0 []
              (World (files w) (input_path :: opened w) (stdout w)))
    as (w1 & runs & buf & idx & recs & Hrun & Hbuilt & Hbuf & Hperm & Hcnt & Hout).
  { split_and!; [done|constructor|constructor|constructor]. }
  { constructor. }
  rewrite (bind_Ok _ _ _ _ _ Hrun). simpl in Hperm, Hcnt, Hout.
  case_bool_decide as Hne.
  - rewrite (bind_Ok _ _ _ _ _ (flush_run_eq _ _ _ _)).
    destruct (built_flush _ _ _ _ _ _ Hbuilt Hbuf) as (Hruns & Hh & Hsz & Hs).
    exists (World (<[run_path tmp_dir idx := flat (merge_sort lexle buf)]> (files w1))
                  (run_path tmp_dir idx :: opened w1) (stdout w1)),
      (S idx), (recs ++ [merge_sort lexle buf]).
    unfold ret. rewrite Hruns in *.
    split_and!; [done|done|done|done| | |done].
    + rewrite join_app. simpl. by rewrite app_nil_r, merge_sort_Permutation.
    + destruct buf; [done|]. simpl in Hcnt. lia.
  - assert (buf = []) as -> by (by destruct buf). rewrite app_nil_r in Hperm.
    destruct Hbuilt as (-> & Hh & Hsz & Hs).
    exists w1, idx, recs. split_and!; [done..|lia|done].
Qed.

Lemma try_block_ok fuel tmp_dir input_path output_path chunk_records fan_in
    w lines keys :
  input_lines w input_path = Some lines →
  encode_lines inet_pton6 lines = inr keys →
  (2 ≤ fan_in)%Z →
  length lines ≤ fuel →
  ∃ w1 w',
    try_block inet_pton6 fuel tmp_dir input_path output_path chunk_records
      fan_in w = (Ok (distinct_count keys), w') ∧
    files w' = <[output_path := count_line (distinct_count keys)]> (files w1) ∧
    stdout w' = stdout w.
Proof.
  intros Hlines Hkeys Hfan Hfuel. unfold try_block.
  destruct (generate_initial_runs_ok w input_path tmp_dir chunk_records
              lines keys Hlines Hkeys)
    as (w1 & idx & recs & Hgen & Hh & Hsz & Hs & Hperm & Hidx & Hout1).
  rewrite (bind_Ok _ _ _ _ _ Hgen).
  destruct (reduce_loop_ok tmp_dir fan_in fuel 0
              (run_path tmp_dir <$> seq 0 idx) recs w1 Hfan)
    as (w2 & runs & recs' & Hred & Hh' & _ & Hsz' & Hperm' & Hs' & _ & Hout2);
    [|done|apply run_paths_NoDup|done|apply run_paths_no_clash|].
  { rewrite length_fmap, length_seq.
    pose proof (encode_lines_length _ _ _ Hkeys). lia. }
  unfold reduce_runs. rewrite (bind_Ok _ _ _ _ _ Hred).
  destruct (count_unique_across_runs_ok runs _ w2 Hh') as (w3 & Hcount & Hf3 & Hout3).
  rewrite (bind_Ok _ _ _ _ _ Hcount).
  rewrite count_step_sorted by (by apply merged_batch_sorted, Hs').
  rewrite (distinct_count_perm _ keys)
    by (by rewrite merged_batch_perm, Hperm', Hperm).
  exists w3. eexists. unfold bind, write_file, ret, count_line. simpl.
  split_and!; [done|done|simpl; congruence].
Qed.

(** C1. For every input whose lines all encode, to the keys [keys], every
    batch size and every fan-in of at least 2, the pipeline returns the
    number of distinct keys: the cardinality of the set of [keys], which is
    the same for every sequence with the same keys, in whatever order and
    however often repeated. The fuel given to the reducer need not exceed
    the number of lines. *)
Theorem count_unique_ipv6_external_correct fuel tmp_dir input_path
    output_path chunk_records fan_in keep_tmp w lines keys :
  input_lines w input_path = Some lines →
  encode_lines inet_pton6 lines = inr keys →
  (2 ≤ fan_in)%Z →
  length lines ≤ fuel →
  (count_unique_ipv6_external inet_pton6 fuel tmp_dir input_path output_path
     chunk_records fan_in keep_tmp w).1 = Ok (distinct_count keys) ∧
  ∀ keys', (∀ k, k ∈ keys' ↔ k ∈ keys) →
    distinct_count keys' = distinct_count keys.
Proof.
  intros Hlines Hkeys Hfan Hfuel. split; [|apply distinct_count_same_set].
  destruct (try_block_ok fuel tmp_dir input_path output_path chunk_records
              fan_in w lines keys Hlines Hkeys Hfan Hfuel)
    as (w1 & w' & Hrun & _).
  unfold count_unique_ipv6_external, try_finally. rewrite Hrun.
  by destruct keep_tmp.
Qed.
End pipeline_facts.

(** ** Claims about the merge and the reducer *)

(** C2. Merging run files that hold 16-byte records writes a file whose
    records are a permutation of the records of the inputs, as many as the
    inputs hold together, and in ascending order when every input is. The
    output is none of the inputs, which are read as they were when
    opened. *)
Theorem merge_runs_to_file_correct run_paths out_path recs w :
  holds (files w) run_paths (flat <$> recs) →
  record_sized recs →
  out_path ∉ run_paths →
  ∃ w' out,
    merge_runs_to_file run_paths out_path w = (Ok tt, w') ∧
    files w' !! out_path = Some (flat out) ∧
    records (flat out) = out ∧
    out ≡ₚ mjoin recs ∧
    length out = sum_list (length <$> recs) ∧
    (Forall (StronglySorted lexle) recs → StronglySorted lexle out).
Proof.
  intros Hh Hsz _.
  destruct (merge_runs_to_file_ok run_paths out_path _ w Hh) as (w' & Hrun & Hf & _).
  exists w', (merged (flat <$> recs)). split_and!.
  - done.
  - by rewrite Hf, lookup_insert_eq.
  - by apply records_concat, merged_batch_sized.
  - by apply merged_batch_perm.
  - by rewrite merged_batch_perm, length_join.
  - by apply merged_batch_sorted.
Qed.

Lemma chunks_1_length {A} (l : list A) : length (chunks 1 l) = length l.
Proof.
  induction l as [|l Hl IH] using (chunks_ind 1 ltac:(lia)); [done|].
  rewrite chunks_step by (done || lia). simpl. rewrite IH, length_drop.
  destruct l; [done|]. simpl. lia.
Qed.

Lemma reduce_pass_run_set tmp_dir fan_in level runs recs w :
  (1 ≤ fan_in)%Z →
  run_set tmp_dir level w runs recs →
  ∃ w' runs',
    reduce_pass runs tmp_dir fan_in level w = (Ok runs', w') ∧
    run_set tmp_dir (S level) w' runs' (pass_records (Z.to_nat fan_in) recs) ∧
    length runs' = length (chunks (Z.to_nat fan_in) runs).
Proof.
  intros Hfan [Hh Hnd Hsz Hclash].
  destruct (reduce_pass_ok tmp_dir fan_in level runs recs w Hfan Hh Hnd)
    as (w' & Hrun & Hh' & _); [intros p j Hp; by apply Hclash|].
  eexists w', _. split; [exact Hrun|]. split; [split|].
  - done.
  - apply merge_paths_NoDup.
  - apply pass_records_sized; [lia|done].
  - apply merge_paths_no_clash.
  - by rewrite length_fmap, length_seq.
Qed.

Lemma reduce_loop_length tmp_dir fan_in fuel level runs w runs' w' :
  reduce_loop fuel runs tmp_dir fan_in level w = (Ok runs', w') →
  (Z.of_nat (length runs') ≤ fan_in)%Z.
Proof.
  revert level runs w. induction fuel as [|fuel IH]; intros level runs w;
    cbn [reduce_loop]; case_bool_decide; try done; try (intros [= <- _]; lia).
  unfold bind. destruct (reduce_pass _ _ _ _ w) as [[new_runs| |] w1]; [|done..].
  apply IH.
Qed.

Lemma reduce_loop_run_set tmp_dir fan_in fuel level runs recs w runs' w' :
  (1 ≤ fan_in)%Z →
  run_set tmp_dir level w runs recs →
  reduce_loop fuel runs tmp_dir fan_in level w = (Ok runs', w') →
  ∃ level' recs',
    run_set tmp_dir level' w' runs' recs' ∧
    mjoin recs' ≡ₚ mjoin recs ∧
    length runs' ≤ length runs.
Proof.
  intros Hfan. revert level runs recs w.
  induction fuel as [|fuel IH]; intros level runs recs w Hset;
    cbn [reduce_loop]; case_bool_decide; try done;
    try (intros [= <- <-]; by exists level, recs).
  destruct (reduce_pass_run_set _ _ _ _ _ _ Hfan Hset) as (w1 & runs1 & Hpass & Hset1 & Hlen).
  rewrite (bind_Ok _ _ _ _ _ Hpass). intros Hrun.
  destruct (IH _ _ _ _ Hset1 Hrun) as (level' & recs' & Hset' & Hperm & Hlen').
  exists level', recs'. split_and!; [done| |].
  - rewrite Hperm. apply pass_records_perm; [lia|]. apply Hset.
  - pose proof (chunks_length_le (Z.to_nat fan_in) ltac:(lia) runs). lia.
Qed.

(** C3. With a fan-in of at least 1, a pass of the reducer over a run set
    returns a run set of the next level with the same records, counted
    with multiplicity, and with no more runs; and whenever the loop of
    [reduce_runs] (which starts it at level 0) returns, it returns at most
    [fan_in] runs, no more runs than it was given, holding the same
    records. *)
Theorem reduce_runs_invariants tmp_dir fan_in level runs recs w :
  (1 ≤ fan_in)%Z →
  run_set tmp_dir level w runs recs →
  (∃ w' runs' recs',
     reduce_pass runs tmp_dir fan_in level w = (Ok runs', w') ∧
     run_set tmp_dir (S level) w' runs' recs' ∧
     mjoin recs' ≡ₚ mjoin recs ∧
     length runs' ≤ length runs) ∧
  (∀ fuel runs' w',
     reduce_loop fuel runs tmp_dir fan_in level w = (Ok runs', w') →
     (Z.of_nat (length runs') ≤ fan_in)%Z ∧
     length runs' ≤ length runs ∧
     ∃ level' recs',
       run_set tmp_dir level' w' runs' recs' ∧ mjoin recs' ≡ₚ mjoin recs).
Proof.
  intros Hfan Hset. split.
  - destruct (reduce_pass_run_set _ _ _ _ _ _ Hfan Hset) as (w' & runs' & Hpass & Hset' & Hlen).
    exists w', runs', (pass_records (Z.to_nat fan_in) recs). split_and!; [done..| |].
    + apply pass_records_perm; [lia|]. apply Hset.
    + pose proof (chunks_length_le (Z.to_nat fan_in) ltac:(lia) runs). lia.
  - intros fuel runs' w' Hrun.
    destruct (reduce_loop_run_set _ _ _ _ _ _ _ _ _ Hfan Hset Hrun)
      as (level' & recs' & Hset' & Hperm & Hlen).
    split_and!; [by eapply reduce_loop_length|done|by exists level', recs'].
Qed.

Lemma reduce_loop_fan_in_1 tmp_dir fuel level runs recs w :
  run_set tmp_dir level w runs recs →
  2 ≤ length runs →
  (reduce_loop fuel runs tmp_dir 1 level w).1 = Timeout.
Proof.
  revert level runs recs w. induction fuel as [|fuel IH];
    intros level runs recs w Hset Hlen; cbn [reduce_loop];
    rewrite bool_decide_true by lia; [done|].
  destruct (reduce_pass_run_set tmp_dir 1 level runs recs w ltac:(lia) Hset)
    as (w1 & runs1 & Hpass & Hset1 & Hlen1).
  rewrite (bind_Ok _ _ _ _ _ Hpass). eapply IH; [done|].
  change (Z.to_nat 1) with 1 in Hlen1. rewrite chunks_1_length in Hlen1. lia.
Qed.

(** ** The reducer with a fan-in of 1 *)

Lemma three_runs_run_set :
  run_set sample_dir 0 three_runs (run_path sample_dir <$> seq 0 3)
    [[sample_key x01]; [sample_key x03]; [sample_key x02]].
Proof.
  split.
  - repeat constructor.
  - apply run_paths_NoDup.
  - repeat constructor.
  - apply run_paths_no_clash.
Qed.

(** C4. The source does not meet the claim. With a fan-in of 1 every batch
    is one run, a pass makes as many runs as it was given, and the loop of
    [reduce_runs] never ends: on the three sample runs it is still running
    after any number of passes. *)
Theorem reduce_runs_fan_in_1_diverges fuel :
  (reduce_runs fuel (run_path sample_dir <$> seq 0 3) sample_dir 1 three_runs).1 =
  Timeout.
Proof.
  unfold reduce_runs. eapply reduce_loop_fan_in_1.
  - apply three_runs_run_set.
  - simpl. lia.
Qed.

(** ** What the stages leave alone *)

Lemma touches_only_refl d w : touches_only d w w.
Proof. by intros q _. Qed.

Lemma touches_only_trans d w1 w2 w3 :
  touches_only d w1 w2 → touches_only d w2 w3 → touches_only d w1 w3.
Proof. intros H12 H23 q Hq. by rewrite H23, H12. Qed.

Lemma confined_ret d {A} (Q : A → Prop) a : Q a → confined d Q (ret a).
Proof. intros Ha w. split; [apply touches_only_refl|]. by intros ? [= <-]. Qed.

Lemma confined_lift d {A} (Q : A → Prop) (r : outcome A) :
  (∀ a, r = Ok a → Q a) → confined d Q (lift r).
Proof. intros Hr w. split; [apply touches_only_refl|]. apply Hr. Qed.

Lemma confined_raise d {A} (Q : A → Prop) e : confined d Q (raise e).
Proof. intros w. split; [apply touches_only_refl|done]. Qed.

Lemma confined_timeout d {A} (Q : A → Prop) : confined d Q timeout.
Proof. intros w. split; [apply touches_only_refl|done]. Qed.

Lemma confined_bind d {A B} (P : A → Prop) (Q : B → Prop) (m : M A) (k : A → M B) :
  confined d P m → (∀ a, P a → confined d Q (k a)) → confined d Q (bind m k).
Proof.
  intros Hm Hk w. destruct (Hm w) as [Ht Hp]. unfold bind.
  destruct (m w) as [[a|e|] w1]; simpl in *; [|done..].
  destruct (Hk a (Hp a eq_refl) w1) as [Ht' Hq].
  split; [by eapply touches_only_trans|done].
Qed.

Lemma confined_weaken d {A} (P Q : A → Prop) (m : M A) :
  (∀ a, P a → Q a) → confined d P m → confined d Q m.
Proof. intros HPQ Hm w. destruct (Hm w) as [? HP]. split; [done|]. intros a ?. by apply HPQ, HP. Qed.

Lemma confined_open_rb d p : confined d (λ _, True) (open_rb p).
Proof.
  intros w. unfold open_rb. destruct (files w !! p); (split; [by intros q _|done]).
Qed.

Lemma confined_write_file d p c :
  in_dir d p = true → confined d (λ _, True) (write_file p c).
Proof.
  intros Hp w. split; [|done]. intros q Hq. simpl.
  apply lookup_insert_ne. intros <-. congruence.
Qed.

Lemma confined_remove d p :
  in_dir d p = true →
  confined d (λ _, True) (except_FileNotFoundError_pass (os_remove p)).
Proof.
  intros Hp w. unfold except_FileNotFoundError_pass, os_remove.
  destruct (files w !! p); (split; [|done]); [|apply touches_only_refl].
  intros q Hq. simpl. apply lookup_delete_ne. intros <-. congruence.
Qed.

Lemma confined__open_runs d run_paths : confined d (λ _, True) (_open_runs run_paths).
Proof.
  induction run_paths as [|p run_paths IH]; [by apply confined_ret|].
  cbn [_open_runs]. eapply confined_bind; [apply confined_open_rb|]. intros f _.
  eapply confined_bind; [apply IH|]. intros fs _. by apply confined_ret.
Qed.

Lemma confined_merge_runs_to_file d run_paths out_path :
  in_dir d out_path = true →
  confined d (λ _, True) (merge_runs_to_file run_paths out_path).
Proof.
  intros Hout. unfold merge_runs_to_file.
  eapply confined_bind; [apply confined__open_runs|]. intros handles _.
  eapply confined_bind; [by apply (confined_lift d (λ _, True))|]. intros out _.
  by apply confined_write_file.
Qed.

Lemma confined_remove_batch d batch :
  all_in_dir d batch → confined d (λ _, True) (remove_batch batch).
Proof.
  induction 1 as [|p batch Hp _ IH]; [by apply confined_ret|].
  cbn [remove_batch]. eapply confined_bind; [by apply confined_remove|].
  intros _ _. apply IH.
Qed.

Lemma confined_merge_batches d starts runs f level new_runs :
  all_in_dir d runs → all_in_dir d new_runs →
  confined d (all_in_dir d) (merge_batches starts runs d f level new_runs).
Proof.
  intros Hruns. revert new_runs.
  induction starts as [|s starts IH]; intros new_runs Hnew; [by apply confined_ret|].
  cbn [merge_batches].
  eapply confined_bind; [apply confined_merge_runs_to_file, in_dir_merge_path|].
  intros _ _. eapply confined_bind.
  { apply confined_remove_batch. unfold all_in_dir.
    by apply Forall_take, Forall_drop. }
  intros _ _. apply IH. apply Forall_app. split; [done|].
  constructor; [apply in_dir_merge_path|constructor].
Qed.

Lemma confined_reduce_loop d fan_in fuel level runs :
  all_in_dir d runs →
  confined d (all_in_dir d) (reduce_loop fuel runs d fan_in level).
Proof.
  revert level runs. induction fuel as [|fuel IH]; intros level runs Hruns;
    cbn [reduce_loop]; case_bool_decide;
    try (by apply confined_ret); try apply confined_timeout.
  eapply confined_bind; [|intros new_runs Hnew; by apply IH].
  unfold reduce_pass. eapply confined_bind.
  - unfold py_range. repeat case_bool_decide.
    + apply confined_raise.
    + by apply (confined_ret d (λ _, True)).
    + by apply (confined_ret d (λ _, True)).
  - intros starts _. apply confined_merge_batches; [done|constructor].
Qed.

Lemma confined_count_unique_across_runs d run_paths :
  confined d (λ _, True) (count_unique_across_runs run_paths).
Proof.
  unfold count_unique_across_runs. case_bool_decide; [by apply confined_ret|].
  eapply confined_bind; [apply confined__open_runs|]. intros handles _.
  eapply confined_bind; [by apply (confined_lift d (λ _, True))|]. intros st _.
  by apply confined_ret.
Qed.

Lemma confined_flush_run d buf run_idx :
  confined d (λ p, in_dir d p = true) (flush_run buf d run_idx).
Proof.
  unfold flush_run. eapply confined_bind.
  - apply confined_write_file. apply in_dir_run_path.
  - intros _ _. apply confined_ret. apply in_dir_run_path.
Qed.

Lemma confined_read_loop inet_pton6 d lines chunk_records runs buf run_idx :
  all_in_dir d runs →
  confined d (λ st, all_in_dir d st.1.1)
    (read_loop inet_pton6 lines d chunk_records runs buf run_idx).
Proof.
  revert runs buf run_idx.
  induction lines as [|line lines IH]; intros runs buf run_idx Hruns;
    cbn [read_loop]; [by apply confined_ret|].
  case_bool_decide; [by apply IH|].
  eapply confined_bind.
  { unfold ipv6_to_packed. destruct (inet_pton6 _).
    - apply confined_raise.
    - by apply (confined_ret d (λ _, True)). }
  intros packed _. case_bool_decide; [|by apply IH].
  eapply confined_bind; [apply confined_flush_run|].
  intros p Hp. apply IH. apply Forall_app. split; [done|]. by constructor.
Qed.

Lemma confined_generate_initial_runs inet_pton6 d input_path chunk_records :
  confined d (all_in_dir d)
    (generate_initial_runs inet_pton6 input_path d chunk_records).
Proof.
  unfold generate_initial_runs. eapply confined_bind.
  { unfold read_text_lines. eapply confined_bind; [apply confined_open_rb|].
    intros c _. destruct (decode_ascii c).
    - by apply (confined_ret d (λ _, True)).
    - apply confined_raise. }
  intros lines _. eapply confined_bind.
  { apply confined_read_loop. constructor. }
  intros [[runs buf] run_idx] Hruns. simpl in Hruns.
  case_bool_decide; [|by apply confined_ret].
  eapply confined_bind; [apply confined_flush_run|].
  intros p Hp. apply confined_ret. apply Forall_app. split; [done|]. by constructor.
Qed.

(** ** The orchestrator *)

Lemma rmtree_inside d (fs : gmap string bytes) q :
  in_dir d q = true → filter (λ kv, in_dir d kv.1 = false) fs !! q = None.
Proof.
  intros Hq. apply map_lookup_filter_None. right. intros c _. simpl. congruence.
Qed.

Lemma rmtree_outside d (fs : gmap string bytes) q :
  in_dir d q = false → filter (λ kv, in_dir d kv.1 = false) fs !! q = fs !! q.
Proof.
  intros Hq. destruct (fs !! q) as [c|] eqn:Hc.
  - by apply map_lookup_filter_Some.
  - apply map_lookup_filter_None. by left.
Qed.

Section orchestrator_facts.
Context (inet_pton6 : string → exn + bytes).

Lemma try_block_output fuel tmp_dir input_path output_path chunk_records fan_in w :
  in_dir tmp_dir output_path = false →
  match (try_block inet_pton6 fuel tmp_dir input_path output_path
           chunk_records fan_in w).1 with
  | Ok n =>
      files (try_block inet_pton6 fuel tmp_dir input_path output_path
               chunk_records fan_in w).2 !! output_path = Some (count_line n)
  | _ =>
      files (try_block inet_pton6 fuel tmp_dir input_path output_path
               chunk_records fan_in w).2 !! output_path = files w !! output_path
  end.
Proof.
  intros Hout. unfold try_block, reduce_runs, bind.
  destruct (confined_generate_initial_runs inet_pton6 tmp_dir input_path
              chunk_records w) as [Ht1 Hq1].
  destruct (generate_initial_runs _ _ _ _ w) as [[runs| |] w1]; simpl in *;
    [|by apply Ht1..].
  destruct (confined_reduce_loop tmp_dir fan_in fuel 0 runs (Hq1 _ eq_refl) w1)
    as [Ht2 _].
  destruct (reduce_loop _ _ _ _ _ w1) as [[runs'| |] w2]; simpl in *;
    [|by rewrite Ht2, Ht1..].
  destruct (confined_count_unique_across_runs tmp_dir runs' w2) as [Ht3 _].
  destruct (count_unique_across_runs _ w2) as [[ans| |] w3]; simpl in *;
    [|by rewrite Ht3, Ht2, Ht1..].
  apply lookup_insert_eq.
Qed.

(** C9. The output file holds the decimal count and a line feed exactly
    when the pipeline returns a count; on every other outcome, an
    exception of a stage or a reducer that never ends, the output file is
    as it was. The temporary directory is fresh, so the output path does
    not lie in it. *)
Theorem output_all_or_nothing fuel tmp_dir input_path output_path
    chunk_records fan_in keep_tmp w :
  in_dir tmp_dir output_path = false →
  match (count_unique_ipv6_external inet_pton6 fuel tmp_dir input_path
           output_path chunk_records fan_in keep_tmp w).1 with
  | Ok n =>
      files (count_unique_ipv6_external inet_pton6 fuel tmp_dir input_path
               output_path chunk_records fan_in keep_tmp w).2 !! output_path =
      Some (list_byte_of_string (str n +:+ LF))
  | _ =>
      files (count_unique_ipv6_external inet_pton6 fuel tmp_dir input_path
               output_path chunk_records fan_in keep_tmp w).2 !! output_path =
      files w !! output_path
  end.
Proof.
  intros Hout.
  pose proof (try_block_output fuel tmp_dir input_path output_path
                chunk_records fan_in w Hout) as Hbody.
  unfold count_unique_ipv6_external, try_finally.
  destruct (try_block _ _ _ _ _ _ _ w) as [[n|e|] w1]; simpl in *; [| |done].
  - destruct keep_tmp; simpl; [done|].
    by rewrite (rmtree_outside tmp_dir (files w1) output_path Hout).
  - destruct keep_tmp; simpl; [done|].
    by rewrite (rmtree_outside tmp_dir (files w1) output_path Hout).
Qed.

(** C8. Whenever the orchestrator returns or raises, no file is left below
    the temporary directory, unless [keep_tmp] is set: then the files are
    those the [try] block left and the last line printed names the
    directory. *)
Theorem workspace_released fuel tmp_dir input_path output_path chunk_records
    fan_in keep_tmp w :
  (count_unique_ipv6_external inet_pton6 fuel tmp_dir input_path output_path
     chunk_records fan_in keep_tmp w).1 ≠ Timeout →
  if keep_tmp then
    files (count_unique_ipv6_external inet_pton6 fuel tmp_dir input_path
             output_path chunk_records fan_in keep_tmp w).2 =
    files (try_block inet_pton6 fuel tmp_dir input_path output_path
             chunk_records fan_in w).2 ∧
    head (stdout (count_unique_ipv6_external inet_pton6 fuel tmp_dir
                    input_path output_path chunk_records fan_in keep_tmp w).2) =
    Some (tmp_kept_message tmp_dir)
  else
    ∀ q, in_dir tmp_dir q = true →
      files (count_unique_ipv6_external inet_pton6 fuel tmp_dir input_path
               output_path chunk_records fan_in keep_tmp w).2 !! q = None.
Proof.
  unfold count_unique_ipv6_external, try_finally.
  destruct (try_block _ _ _ _ _ _ _ w) as [[n|e|] w1]; simpl; [| |done];
    intros _; destruct keep_tmp; simpl; try done;
    intros q Hq; by apply rmtree_inside.
Qed.

(** C7. On an empty input file the builder returns no run and writes no
    file; the counter returns 0 on the empty run set and leaves the world,
    the list of opened files included, as it is; and the pipeline returns
    0 for every fan-in that is not negative. *)
Theorem empty_input_counts_zero fuel tmp_dir input_path output_path
    chunk_records fan_in keep_tmp w :
  files w !! input_path = Some [] →
  (0 ≤ fan_in)%Z →
  generate_initial_runs inet_pton6 input_path tmp_dir chunk_records w =
    (Ok [], World (files w) (input_path :: opened w) (stdout w)) ∧
  (∀ w', count_unique_across_runs [] w' = (Ok 0, w')) ∧
  (count_unique_ipv6_external inet_pton6 fuel tmp_dir input_path output_path
     chunk_records fan_in keep_tmp w).1 = Ok 0.
Proof.
  intros Hin Hfan.
  assert (generate_initial_runs inet_pton6 input_path tmp_dir chunk_records w =
          (Ok [], World (files w) (input_path :: opened w) (stdout w))) as Hgen.
  { unfold generate_initial_runs, read_text_lines, bind, open_rb. by rewrite Hin. }
  split_and!; [done|done|].
  unfold count_unique_ipv6_external, try_finally, try_block, reduce_runs.
  rewrite (bind_Ok _ _ _ _ _ Hgen).
  assert (reduce_loop fuel [] tmp_dir fan_in 0 =
          ret []) as ->.
  { destruct fuel; cbn [reduce_loop]; by rewrite bool_decide_false by (simpl; lia). }
  by destruct keep_tmp.
Qed.
End orchestrator_facts.

(** ** Lines that do not encode, and blank lines *)

Section line_facts.
Context (inet_pton6 : string → exn + bytes).

Lemma first_bad_line_ge lines n i :
  first_bad_line inet_pton6 lines n = Some i → n ≤ i.
Proof.
  revert n. induction lines as [|line lines IH]; intros n; simpl; [done|].
  case_bool_decide; [intros ?%IH; lia|].
  destruct (inet_pton6 _); [intros [= <-]; lia|intros ?%IH; lia].
Qed.

Lemma first_bad_line_encode lines n i line e :
  first_bad_line inet_pton6 lines n = Some i →
  lines !! (i - n) = Some line →
  inet_pton6 (strip line) = inl e →
  encode_lines inet_pton6 lines = inl e.
Proof.
  revert n. induction lines as [|l lines IH]; intros n; simpl; [done|].
  case_bool_decide as Hblank.
  - intros Hbad Hline Henc. pose proof (first_bad_line_ge _ _ _ Hbad).
    replace (i - n) with (S (i - S n)) in Hline by lia. by eapply IH.
  - destruct (inet_pton6 (strip l)) as [e0|packed] eqn:Hl.
    + intros [= <-]. rewrite Nat.sub_diag. intros [= <-]. congruence.
    + intros Hbad Hline Henc. pose proof (first_bad_line_ge _ _ _ Hbad).
      replace (i - n) with (S (i - S n)) in Hline by lia.
      by rewrite (IH _ Hbad Hline Henc).
Qed.

Lemma read_loop_raises lines tmp_dir chunk_records e runs buf run_idx w :
  encode_lines inet_pton6 lines = inl e →
  (read_loop inet_pton6 lines tmp_dir chunk_records runs buf run_idx w).1 =
  Raise e.
Proof.
  revert runs buf run_idx w.
  induction lines as [|line lines IH]; intros runs buf run_idx w; simpl; [done|].
  case_bool_decide; [apply IH|].
  unfold ipv6_to_packed, bind at 1.
  destruct (inet_pton6 (strip line)) as [e0|packed]; simpl; [by intros [= <-]|].
  destruct (encode_lines inet_pton6 lines) as [e1|keys] eqn:Hrest; [|done].
  intros [= <-]. case_bool_decide; [|by apply IH].
  rewrite (bind_Ok _ _ _ _ _ (flush_run_eq _ _ _ _)). by apply IH.
Qed.

(** C6, as the source has it. When a line does not encode, the builder and
    the pipeline raise the exception of the encoder for the first such
    line, as the encoder raised it: the line is neither skipped nor tried
    again, no count is returned and the output file is as it was. *)
Theorem encoding_error_propagates fuel tmp_dir input_path output_path
    chunk_records fan_in keep_tmp w lines i line e :
  input_lines w input_path = Some lines →
  first_bad_line inet_pton6 lines 0 = Some i →
  lines !! i = Some line →
  inet_pton6 (strip line) = inl e →
  in_dir tmp_dir output_path = false →
  (generate_initial_runs inet_pton6 input_path tmp_dir chunk_records w).1 =
    Raise e ∧
  (count_unique_ipv6_external inet_pton6 fuel tmp_dir input_path output_path
     chunk_records fan_in keep_tmp w).1 = Raise e ∧
  files (count_unique_ipv6_external inet_pton6 fuel tmp_dir input_path
           output_path chunk_records fan_in keep_tmp w).2 !! output_path =
    files w !! output_path.
Proof.
  intros Hlines Hbad Hline Henc Hout.
  rewrite <-(Nat.sub_0_r i) in Hline.
  pose proof (first_bad_line_encode _ _ _ _ _ Hbad Hline Henc) as Hkeys.
  assert ((generate_initial_runs inet_pton6 input_path tmp_dir chunk_records w).1
          = Raise e) as Hgen.
  { unfold generate_initial_runs.
    rewrite (bind_Ok _ _ _ _ _ (read_text_lines_ok _ _ _ Hlines)).
    pose proof (read_loop_raises lines tmp_dir chunk_records e [] [] 0
                  (World (files w) (input_path :: opened w) (stdout w)) Hkeys) as Hloop.
    unfold bind.
    destruct (read_loop _ _ _ _ _ _ _ _) as [[?| |] ?]; simpl in *; congruence. }
  pose proof (try_block_output inet_pton6 fuel tmp_dir input_path output_path
                chunk_records fan_in w Hout) as Hbody.
  assert ((try_block inet_pton6 fuel tmp_dir input_path output_path
             chunk_records fan_in w).1 = Raise e) as Htry.
  { unfold try_block, bind.
    destruct (generate_initial_runs _ _ _ _ w) as [[?| |] ?]; simpl in *; congruence. }
  split; [done|].
  unfold count_unique_ipv6_external, try_finally.
  destruct (try_block _ _ _ _ _ _ _ w) as [[n|e'|] w1]; simpl in *; try done.
  injection Htry as ->. destruct keep_tmp; simpl; [done|].
  by rewrite (rmtree_outside tmp_dir (files w1) output_path Hout).
Qed.

(** C10. The loop over the lines never hands a blank line to the encoder
    and does nothing for it: whatever the encoder would answer on the
    empty text, the loop runs as it does on the input without its blank
    lines. *)
Theorem read_loop_skips_blank_lines (inet_pton6' : string → exn + bytes)
    lines tmp_dir chunk_records runs buf run_idx w :
  (∀ s, s ≠ "" → inet_pton6 s = inet_pton6' s) →
  read_loop inet_pton6 lines tmp_dir chunk_records runs buf run_idx w =
  read_loop inet_pton6' (filter (λ line, strip line ≠ "") lines) tmp_dir
    chunk_records runs buf run_idx w.
Proof.
  intros Hagree. revert runs buf run_idx w.
  induction lines as [|line lines IH]; intros runs buf run_idx w; [done|].
  cbn [read_loop]. case_bool_decide as Hblank.
  - rewrite filter_cons_False by (by intros ?). apply IH.
  - rewrite filter_cons_True by done. cbn [read_loop].
    rewrite bool_decide_false by done.
    unfold ipv6_to_packed. rewrite <-(Hagree _ Hblank).
    unfold bind at 1 3. destruct (inet_pton6 (strip line)) as [e|packed]; [done|].
    unfold ret. case_bool_decide; [|apply IH].
    rewrite !(bind_Ok _ _ _ _ _ (flush_run_eq _ _ _ _)). apply IH.
Qed.
End line_facts.

(** ** Truncated run files *)

Lemma records_short_tail (c : bytes) :
  length c `mod` RECORD_SIZE ≠ 0 →
  ∃ r, last (records c) = Some r ∧ length r = length c `mod` RECORD_SIZE.
Proof.
  assert (0 < RECORD_SIZE) as Hpos by (unfold RECORD_SIZE; lia).
  induction c as [|c Hc IH] using (chunks_ind RECORD_SIZE Hpos); [done|].
  intros Hmod. rewrite records_step by done.
  destruct (decide (length c < RECORD_SIZE)) as [Hlt|Hge].
  - rewrite drop_ge, records_nil, take_ge by lia.
    exists c. by rewrite Nat.mod_small.
  - rewrite length_drop in IH.
    assert ((length c - RECORD_SIZE) `mod` RECORD_SIZE = length c `mod` RECORD_SIZE)
      as Hsame.
    { replace (length c) with ((length c - RECORD_SIZE) + 1 * RECORD_SIZE) at 2 by lia.
      by rewrite Nat.Div0.mod_add. }
    rewrite Hsame in IH. destruct (IH Hmod) as (r & Hlast & Hlen).
    exists r. split; [|done].
    destruct (records (drop RECORD_SIZE c)); [done|]. done.
Qed.

(** C5, as the source has it. A run file whose length is no multiple of
    the record size is not detected. Over run files that exist, whatever
    their lengths, the counting pass returns a count and the merge writes
    its output: both go through the records that reading the files 16
    bytes at a time yields, and the short tail of a truncated file is the
    last of them. The output of the merge is none of its inputs. *)
Theorem truncated_run_is_read run_paths out_path cs w :
  holds (files w) run_paths cs →
  out_path ∉ run_paths →
  ∃ out,
    out ≡ₚ mjoin (records <$> cs) ∧
    (count_unique_across_runs run_paths w).1 =
      Ok (foldl count_step (None, 0) out).2 ∧
    (merge_runs_to_file run_paths out_path w).1 = Ok tt ∧
    files (merge_runs_to_file run_paths out_path w).2 !! out_path =
      Some (flat out) ∧
    ∀ c, c ∈ cs → length c `mod` RECORD_SIZE ≠ 0 →
      ∃ r, r ∈ out ∧ last (records c) = Some r ∧
           length r = length c `mod` RECORD_SIZE.
Proof.
  intros Hh _. exists (merged cs).
  destruct (count_unique_across_runs_ok run_paths cs w Hh) as (w1 & -> & _).
  destruct (merge_runs_to_file_ok run_paths out_path cs w Hh) as (w2 & -> & Hf & _).
  simpl. split_and!; [apply merged_perm|done|done|by rewrite Hf, lookup_insert_eq|].
  intros c Hc Hmod. destruct (records_short_tail c Hmod) as (r & Hlast & Hlen).
  exists r. split_and!; [|done..].
  rewrite merged_perm. apply list_elem_of_join. exists (records c). split.
  - apply last_Some in Hlast as [l ->]. apply elem_of_app. right. by left.
  - by apply list_elem_of_fmap_2.
Qed.

(** * The stages one by one *)

(** ** The buffer that becomes a run *)

(** X1. [flush_run] writes the run [run_NNNNNN.bin] of the directory and
    returns its path. Read back 16 bytes at a time, the file yields the
    records of the buffer, each as often as the buffer holds it, in
    ascending order; no other file changes. *)
Theorem flush_run_round_trip buf tmp_dir run_idx w :
  Forall (λ r, length r = RECORD_SIZE) buf →
  ∃ w' c,
    flush_run buf tmp_dir run_idx w = (Ok (run_path tmp_dir run_idx), w') ∧
    files w' !! run_path tmp_dir run_idx = Some c ∧
    records c ≡ₚ buf ∧
    StronglySorted lexle (records c) ∧
    (∀ q, q ≠ run_path tmp_dir run_idx → files w' !! q = files w !! q).
Proof.
  intros Hbuf. eexists _, _. split; [apply flush_run_eq|]. simpl.
  rewrite lookup_insert_eq. split; [done|].
  rewrite records_concat by (by rewrite merge_sort_Permutation).
  split_and!; [apply merge_sort_Permutation|apply sort_sorted|].
  intros q Hq. by rewrite lookup_insert_ne.
Qed.

(** ** The runs of the builder *)

Lemma chunks_short {A} size (l : list A) :
  0 < size → l ≠ [] → length l ≤ size → chunks size l = [l].
Proof.
  intros Hs Hl Hlen. rewrite chunks_step by done.
  by rewrite take_ge, drop_ge by lia.
Qed.

Lemma chunks_app_full {A} size (l k : list A) :
  0 < size → length l = size → chunks size (l ++ k) = l :: chunks size k.
Proof.
  intros Hs Hlen. rewrite chunks_step; [|done|].
  - by rewrite take_app_length', drop_app_length'.
  - destruct l; [simpl in Hlen; lia|done].
Qed.

Lemma chunks_piece_length {A} size (l : list A) :
  0 < size → Forall (λ c, 0 < length c ≤ size) (chunks size l).
Proof.
  intros Hs. induction l as [|l Hl IH] using (chunks_ind size Hs); [constructor|].
  rewrite chunks_step by done. constructor; [|done].
  rewrite length_take. destruct l; [done|]. simpl. lia.
Qed.

Lemma chunks_length_bound {A} size (l : list A) m :
  0 < size → length l ≤ size * m → length (chunks size l) ≤ m.
Proof.
  intros Hs. revert m.
  induction l as [|l Hl IH] using (chunks_ind size Hs); intros m Hm; [simpl; lia|].
  rewrite chunks_step by done. cbn [length].
  destruct m as [|m]; [destruct l; [done|simpl in Hm; lia]|].
  specialize (IH m). rewrite length_drop in IH. apply le_n_S, IH. nia.
Qed.

Lemma chunks_length_lower {A} size (l : list A) m :
  0 < size → size * m < length l → m < length (chunks size l).
Proof.
  intros Hs. revert m.
  induction l as [|l Hl IH] using (chunks_ind size Hs); intros m Hm;
    [simpl in Hm; lia|].
  rewrite chunks_step by done. cbn [length].
  destruct m as [|m]; [lia|].
  specialize (IH m). rewrite length_drop in IH. apply ->Nat.succ_lt_mono.
  apply IH. nia.
Qed.

Lemma run_paths_snoc tmp_dir {A} (recs : list A) (r : A) :
  (run_path tmp_dir <$> seq 0 (length recs)) ++ [run_path tmp_dir (length recs)] =
  run_path tmp_dir <$> seq 0 (length (recs ++ [r])).
Proof. by rewrite length_app, Nat.add_1_r, seq_snoc, fmap_app. Qed.

Lemma holds_flush tmp_dir w (recs : list (list bytes)) c :
  holds (files w) (run_path tmp_dir <$> seq 0 (length recs)) (flat <$> recs) →
  holds (<[run_path tmp_dir (length recs) := flat c]> (files w))
    (run_path tmp_dir <$> seq 0 (length (recs ++ [c]))) (flat <$> recs ++ [c]).
Proof.
  intros Hh. rewrite <-run_paths_snoc, fmap_app. apply Forall2_app.
  - eapply holds_agree; [|done]. intros p Hp.
    rewrite lookup_insert_ne; [done|]. intros <-. by apply run_path_fresh in Hp.
  - constructor; [|constructor]. by rewrite lookup_insert_eq.
Qed.

Section builder_runs.
Context (inet_pton6 : string → exn + bytes).

Lemma read_loop_chunks lines tmp_dir chunk_records keys :
  encode_lines inet_pton6 lines = inr keys →
  ∀ buf recs w,
    length buf < Z.to_nat (Z.max 1 chunk_records) →
    holds (files w) (run_path tmp_dir <$> seq 0 (length recs)) (flat <$> recs) →
    ∃ w' buf' recs',
      read_loop inet_pton6 lines tmp_dir chunk_records
        (run_path tmp_dir <$> seq 0 (length recs)) buf (length recs) w =
        (Ok (run_path tmp_dir <$> seq 0 (length recs'), buf', length recs'), w') ∧
      holds (files w') (run_path tmp_dir <$> seq 0 (length recs'))
        (flat <$> recs') ∧
      recs' ++ (if decide (buf' = []) then [] else [merge_sort lexle buf']) =
        recs ++ (merge_sort lexle <$>
                   chunks (Z.to_nat (Z.max 1 chunk_records)) (buf ++ keys)) ∧
      (∀ q, (∀ i, q ≠ run_path tmp_dir i) → files w' !! q = files w !! q) ∧
      stdout w' = stdout w.
Proof.
  set (size := Z.to_nat (Z.max 1 chunk_records)).
  assert (0 < size) as Hsize by lia.
  revert keys. induction lines as [|line lines IH]; intros keys Hkeys buf recs w
    Hbuf Hh.
  - injection Hkeys as <-. exists w, buf, recs. rewrite app_nil_r.
    split_and!; [done|done| |done|done]. case_decide as Hnil.
    + by subst.
    + rewrite chunks_short by (done || lia). done.
  - cbn [read_loop encode_lines] in *. case_bool_decide as Hblank.
    { by apply IH. }
    unfold ipv6_to_packed.
    destruct (inet_pton6 (strip line)) as [e|packed] eqn:Henc; [done|].
    destruct (encode_lines inet_pton6 lines) as [e|keys'] eqn:Hrest; [done|].
    injection Hkeys as <-. unfold bind at 1, ret.
    replace (buf ++ packed :: keys') with ((buf ++ [packed]) ++ keys')
      by (by rewrite <-app_assoc).
    case_bool_decide as Hfull.
    + rewrite (bind_Ok _ _ _ _ _ (flush_run_eq _ _ _ _)).
      assert (length (buf ++ [packed]) = size) as Hlen.
      { rewrite length_app in *. simpl in *. lia. }
      rewrite (run_paths_snoc tmp_dir recs (merge_sort lexle (buf ++ [packed]))).
      replace (S (length recs))
        with (length (recs ++ [merge_sort lexle (buf ++ [packed])]))
        by (rewrite length_app; simpl; lia).
      destruct (IH keys' eq_refl [] (recs ++ [merge_sort lexle (buf ++ [packed])])
                  (World (<[run_path tmp_dir (length recs) :=
                              flat (merge_sort lexle (buf ++ [packed]))]> (files w))
                         (run_path tmp_dir (length recs) :: opened w) (stdout w)))
        as (w' & buf' & recs' & Hrun & Hh' & Heq & Hframe & Hout);
        [simpl; lia|apply (holds_flush tmp_dir w recs), Hh|].
      exists w', buf', recs'. split_and!; [exact Hrun|done| | |done].
      * rewrite Heq, (chunks_app_full size (buf ++ [packed])) by done.
        by rewrite <-app_assoc.
      * intros q Hq. rewrite Hframe by done. simpl. by rewrite lookup_insert_ne.
    + apply IH; [done| |done]. rewrite length_app in *. simpl in *. lia.
Qed.

Lemma generate_initial_runs_exact w input_path tmp_dir chunk_records lines keys :
  input_lines w input_path = Some lines →
  encode_lines inet_pton6 lines = inr keys →
  let size := Z.to_nat (Z.max 1 chunk_records) in
  ∃ w',
    generate_initial_runs inet_pton6 input_path tmp_dir chunk_records w =
      (Ok (run_path tmp_dir <$> seq 0 (length (chunks size keys))), w') ∧
    holds (files w') (run_path tmp_dir <$> seq 0 (length (chunks size keys)))
      (flat <$> (merge_sort lexle <$> chunks size keys)) ∧
    (∀ q, (∀ i, q ≠ run_path tmp_dir i) → files w' !! q = files w !! q) ∧
    stdout w' = stdout w.
Proof.
  intros Hlines Hkeys size. unfold generate_initial_runs.
  rewrite (bind_Ok _ _ _ _ _ (read_text_lines_ok _ _ _ Hlines)).
  destruct (read_loop_chunks lines tmp_dir chunk_records keys Hkeys [] []
              (World (files w) (input_path :: opened w) (stdout w)))
    as (w1 & buf & recs & Hrun & Hh & Heq & Hframe & Hout);
    [simpl; lia|constructor|].
  simpl in Hrun, Heq, Hframe, Hout. fold size in Heq.
  rewrite (bind_Ok _ _ _ _ _ Hrun). cbn beta iota.
  rewrite <-(length_fmap (merge_sort lexle) (chunks size keys)), <-Heq.
  case_bool_decide as Hne.
  - rewrite decide_False by done.
    rewrite (bind_Ok _ _ _ _ _ (flush_run_eq _ _ _ _)).
    rewrite (run_paths_snoc tmp_dir recs (merge_sort lexle buf)).
    eexists. split_and!; [done| | |done].
    + by apply (holds_flush tmp_dir w1 recs).
    + intros q Hq. simpl. rewrite lookup_insert_ne by done. by apply Hframe.
  - assert (buf = []) as -> by (by destruct buf).
    rewrite decide_True, app_nil_r by done. by exists w1.
Qed.

(** X2. For an input whose lines all encode, the builder cuts the keys, in
    the order of the input, into consecutive batches of [chunk_records]
    keys (of one key when [chunk_records] is below 1), the last batch
    being shorter when the number of keys is no multiple of it. The run
    number [i] holds the sorted batch number [i], no run is empty, none
    holds more than a batch, and no file but the runs changes. *)
Theorem generate_initial_runs_chunks w input_path tmp_dir chunk_records lines
    keys :
  input_lines w input_path = Some lines →
  encode_lines inet_pton6 lines = inr keys →
  in_dir tmp_dir input_path = false →
  let size := Z.to_nat (Z.max 1 chunk_records) in
  ∃ w',
    generate_initial_runs inet_pton6 input_path tmp_dir chunk_records w =
      (Ok (run_path tmp_dir <$> seq 0 (length (chunks size keys))), w') ∧
    holds (files w') (run_path tmp_dir <$> seq 0 (length (chunks size keys)))
      (flat <$> (merge_sort lexle <$> chunks size keys)) ∧
    mjoin (chunks size keys) = keys ∧
    Forall (λ batch, 0 < length batch ≤ size) (chunks size keys) ∧
    (∀ q, (∀ i, q ≠ run_path tmp_dir i) → files w' !! q = files w !! q).
Proof.
  intros Hlines Hkeys _ size.
  destruct (generate_initial_runs_exact w input_path tmp_dir chunk_records
              lines keys Hlines Hkeys) as (w' & Hrun & Hh & Hframe & _).
  exists w'. split_and!; [done|done| | |done].
  - apply mjoin_chunks. lia.
  - apply chunks_piece_length. lia.
Qed.
End builder_runs.

(** ** The names of the temporary files *)

(** X3. The names that the builder and the reducer give to their files
    never collide, whatever the indices, also beyond the width of the
    zero padding: two runs of the builder, or two outputs of the reducer,
    bear the same name only if their indices are the same, no run of the
    builder is named like an output of the reducer, and all of them lie
    below the temporary directory. *)
Theorem temporary_names_distinct tmp_dir :
  (∀ i j, run_path tmp_dir i = run_path tmp_dir j → i = j) ∧
  (∀ l b l' b',
     merge_path tmp_dir l b = merge_path tmp_dir l' b' → l = l' ∧ b = b') ∧
  (∀ i l b, run_path tmp_dir i ≠ merge_path tmp_dir l b) ∧
  (∀ i, in_dir tmp_dir (run_path tmp_dir i) = true) ∧
  (∀ l b, in_dir tmp_dir (merge_path tmp_dir l b) = true).
Proof.
  split_and!.
  - apply run_path_inj.
  - apply merge_path_inj.
  - apply run_path_merge_path.
  - apply in_dir_run_path.
  - apply in_dir_merge_path.
Qed.

(** ** A run file that is missing *)

Lemma _open_runs_first_missing before p after w :
  Forall (λ q, is_Some (files w !! q)) before →
  files w !! p = None →
  _open_runs (before ++ p :: after) w =
  (Raise (FileNotFoundError p),
   World (files w) (reverse before ++ opened w) (stdout w)).
Proof.
  intros Hbefore Hp. revert w Hbefore Hp.
  induction before as [|q before IH]; intros w Hbefore Hp.
  - cbn [app _open_runs]. unfold bind, open_rb. rewrite Hp. by destruct w.
  - apply Forall_cons in Hbefore as [[c Hq] Hbefore].
    cbn [app _open_runs]. unfold bind at 1, open_rb. rewrite Hq.
    rewrite (bind_Raise _ _ _ _ _
               (IH (World (files w) (q :: opened w) (stdout w)) Hbefore Hp)).
    simpl. by rewrite reverse_cons, <-app_assoc.
Qed.

(** X4. When one of the run files does not exist, opening the runs raises
    [FileNotFoundError] for the first path that is missing. The merge and
    the counting pass raise it as well; the merge then creates no output
    file, and neither of them changes a file. *)
Theorem missing_run_raises before p after out_path w :
  Forall (λ q, is_Some (files w !! q)) before →
  files w !! p = None →
  (_open_runs (before ++ p :: after) w).1 = Raise (FileNotFoundError p) ∧
  (merge_runs_to_file (before ++ p :: after) out_path w).1 =
    Raise (FileNotFoundError p) ∧
  files (merge_runs_to_file (before ++ p :: after) out_path w).2 = files w ∧
  (count_unique_across_runs (before ++ p :: after) w).1 =
    Raise (FileNotFoundError p) ∧
  files (count_unique_across_runs (before ++ p :: after) w).2 = files w.
Proof.
  intros Hbefore Hp.
  pose proof (_open_runs_first_missing before p after w Hbefore Hp) as Hopen.
  unfold merge_runs_to_file, count_unique_across_runs.
  rewrite bool_decide_false by (by destruct before).
  rewrite !(bind_Raise _ _ _ _ _ Hopen), Hopen. done.
Qed.

(** ** A fan-in that is not positive *)

Lemma reduce_loop_negative fuel runs tmp_dir fan_in level w :
  (fan_in < 0)%Z →
  reduce_loop fuel runs tmp_dir fan_in level w = (Timeout, w).
Proof.
  intros Hneg. revert runs level.
  induction fuel as [|fuel IH]; intros runs level; cbn [reduce_loop];
    rewrite bool_decide_true by lia; [done|].
  unfold reduce_pass, py_range.
  rewrite bool_decide_false by lia. rewrite bool_decide_true by lia.
  unfold bind at 1 2, ret. cbn [merge_batches]. apply IH.
Qed.

(** X5. A fan-in below 1 never reduces anything. With a fan-in of 0 and at
    least one run, [range] refuses the step of 0 and the reducer raises
    [ValueError]; with a negative fan-in every pass makes no batch at all
    and the loop never ends. No file is changed in either case. *)
Theorem reduce_runs_fan_in_not_positive fuel run_paths tmp_dir fan_in w :
  (fan_in ≤ 0)%Z →
  run_paths ≠ [] →
  reduce_runs (S fuel) run_paths tmp_dir fan_in w =
  (if bool_decide (fan_in = 0)%Z
   then Raise (ValueError "range() arg 3 must not be zero")
   else Timeout, w).
Proof.
  intros Hfan Hne. unfold reduce_runs. case_bool_decide as Hzero.
  - subst. cbn [reduce_loop]. rewrite bool_decide_true; [done|].
    destruct run_paths; [done|simpl; lia].
  - apply reduce_loop_negative. lia.
Qed.

(** ** The passes of the reducer *)

Lemma reduce_loop_total tmp_dir fan_in fuel level runs recs w :
  (2 ≤ fan_in)%Z →
  run_set tmp_dir level w runs recs →
  length runs ≤ Z.to_nat fan_in ^ S fuel →
  ∃ w' runs' recs',
    reduce_loop fuel runs tmp_dir fan_in level w = (Ok runs', w') ∧
    holds (files w') runs' (flat <$> recs') ∧
    record_sized recs' ∧
    mjoin recs' ≡ₚ mjoin recs ∧
    (Forall (StronglySorted lexle) recs → Forall (StronglySorted lexle) recs') ∧
    (∀ p, p ∈ runs → p ∉ runs' → files w' !! p = None) ∧
    (∀ q c, files w' !! q = Some c → q ∈ runs' ∨ files w !! q = Some c) ∧
    stdout w' = stdout w.
Proof.
  intros Hfan. set (f := Z.to_nat fan_in). assert (2 ≤ f) as Hf by lia.
  assert (∀ runs recs w,
            holds (files w) runs (flat <$> recs) → record_sized recs →
            ∃ w' runs' recs',
              (Ok runs, w) = (Ok runs', w') ∧
              holds (files w') runs' (flat <$> recs') ∧
              record_sized recs' ∧
              mjoin recs' ≡ₚ mjoin recs ∧
              (Forall (StronglySorted lexle) recs →
               Forall (StronglySorted lexle) recs') ∧
              (∀ p, p ∈ runs → p ∉ runs' → files w' !! p = None) ∧
              (∀ q c, files w' !! q = Some c → q ∈ runs' ∨ files w !! q = Some c) ∧
              stdout w' = stdout w) as Hstop.
  { intros runs0 recs0 w0 Hh Hsz. exists w0, runs0, recs0.
    split_and!; [done..| |auto|done]. by intros p ? ?. }
  revert level runs recs w.
  induction fuel as [|fuel IH]; intros level runs recs w [Hh Hnd Hsz Hclash] Hlen.
  - cbn [reduce_loop]. rewrite bool_decide_false; [by apply Hstop|].
    rewrite Nat.pow_1_r in Hlen. lia.
  - cbn [reduce_loop]. case_bool_decide as Hgt; [|by apply Hstop].
    destruct (reduce_pass_ok tmp_dir fan_in level runs recs w) as
      (w1 & Hpass & Hh1 & Hgone & Hkept & Hout1); [lia|done|done| |].
    { intros p j Hp. by apply (Hclash p level j). }
    fold f in Hpass, Hh1, Hkept. rewrite (bind_Ok _ _ _ _ _ Hpass).
    set (runs1 := merge_path tmp_dir level <$> seq 0 (length (chunks f runs)))
      in *.
    destruct (IH (S level) runs1 (pass_records f recs) w1)
      as (w' & runs' & recs' & Hrun & Hh' & Hsz' & Hperm & Hsort & Hgone' &
          Hkept' & Hout').
    + split; [done|apply merge_paths_NoDup| |apply merge_paths_no_clash].
      apply pass_records_sized; [lia|done].
    + unfold runs1. rewrite length_fmap, length_seq.
      apply chunks_length_bound; [lia|]. by rewrite <-Nat.pow_succ_r'.
    + assert (∀ q c, files w' !! q = Some c → q ∉ runs' →
                     (q ∉ runs) ∧ files w !! q = Some c) as Hleft.
      { intros q c Hq Hnot. destruct (Hkept' q c Hq) as [?|Hq1]; [done|].
        assert (q ∉ runs) as Hq0.
        { intros Hin. apply Hgone in Hin. congruence. }
        split; [done|]. rewrite <-Hkept; [done|done|].
        intros j Hj ->. assert (merge_path tmp_dir level j ∈ runs1) as Hin.
        { apply list_elem_of_fmap_2, elem_of_seq. lia. }
        apply Hgone' in Hin; [congruence|done]. }
      exists w', runs', recs'. split_and!; [done|done|done| | | | |congruence].
      * rewrite Hperm. apply pass_records_perm; [lia|done].
      * intros Hs. apply Hsort, pass_records_sorted; [lia|done..].
      * intros p Hp Hnot. destruct (files w' !! p) as [c|] eqn:Hc; [|done].
        by destruct (Hleft p c Hc Hnot).
      * intros q c Hq. destruct (decide (q ∈ runs')); [by left|right].
        by destruct (Hleft q c Hq).
Qed.

Lemma reduce_loop_out_of_fuel tmp_dir fan_in fuel level runs recs w :
  (2 ≤ fan_in)%Z →
  run_set tmp_dir level w runs recs →
  Z.to_nat fan_in ^ S fuel < length runs →
  (reduce_loop fuel runs tmp_dir fan_in level w).1 = Timeout.
Proof.
  intros Hfan. set (f := Z.to_nat fan_in). assert (2 ≤ f) as Hf by lia.
  revert level runs recs w.
  induction fuel as [|fuel IH]; intros level runs recs w Hset Hlen.
  - cbn [reduce_loop]. rewrite bool_decide_true; [done|].
    rewrite Nat.pow_1_r in Hlen. lia.
  - cbn [reduce_loop].
    assert (f ≤ f ^ S (S fuel)) as Hpow.
    { rewrite Nat.pow_succ_r'. pose proof (Nat.pow_nonzero f (S fuel)). nia. }
    rewrite bool_decide_true by lia.
    destruct (reduce_pass_run_set tmp_dir fan_in level runs recs w ltac:(lia) Hset)
      as (w1 & runs1 & Hpass & Hset1 & Hlen1).
    rewrite (bind_Ok _ _ _ _ _ Hpass). eapply IH; [done|].
    rewrite Hlen1. apply chunks_length_lower; [lia|].
    by rewrite <-Nat.pow_succ_r'.
Qed.

(** X6. With a fan-in [f] of at least 2, the reducer returns within [k]
    passes from a run set of at most [f ^ (k + 1)] runs, and from a larger
    one it is still running after [k] passes: a pass turns [n] runs into
    the [n / f] batches of them, rounded up. *)
Theorem reduce_runs_passes fuel tmp_dir fan_in runs recs w :
  (2 ≤ fan_in)%Z →
  run_set tmp_dir 0 w runs recs →
  (length runs ≤ Z.to_nat fan_in ^ S fuel →
   ∃ runs', (reduce_runs fuel runs tmp_dir fan_in w).1 = Ok runs') ∧
  (Z.to_nat fan_in ^ S fuel < length runs →
   (reduce_runs fuel runs tmp_dir fan_in w).1 = Timeout).
Proof.
  intros Hfan Hset. unfold reduce_runs. split.
  - intros Hlen.
    destruct (reduce_loop_total tmp_dir fan_in fuel 0 runs recs w Hfan Hset Hlen)
      as (w' & runs' & _ & -> & _).
    by exists runs'.
  - by eapply reduce_loop_out_of_fuel.
Qed.

(** X7. What the reducer leaves on the disk, for a fan-in of at least 2 and
    enough passes: the runs it returns exist, hold the records of the
    runs it was given, and are sorted when those were; every run it
    was given and does not return is deleted; and every file on the disk
    afterwards is a returned run or was there before with the same
    content, so that no intermediate output is left behind. *)
Theorem reduce_runs_leaves_its_runs fuel tmp_dir fan_in runs recs w :
  (2 ≤ fan_in)%Z →
  run_set tmp_dir 0 w runs recs →
  Forall (StronglySorted lexle) recs →
  length runs ≤ Z.to_nat fan_in ^ S fuel →
  ∃ w' runs' recs',
    reduce_runs fuel runs tmp_dir fan_in w = (Ok runs', w') ∧
    holds (files w') runs' (flat <$> recs') ∧
    Forall (StronglySorted lexle) recs' ∧
    mjoin recs' ≡ₚ mjoin recs ∧
    (∀ p, p ∈ runs → p ∉ runs' → files w' !! p = None) ∧
    (∀ q c, files w' !! q = Some c → q ∈ runs' ∨ files w !! q = Some c).
Proof.
  intros Hfan Hset Hs Hlen.
  destruct (reduce_loop_total tmp_dir fan_in fuel 0 runs recs w Hfan Hset Hlen)
    as (w' & runs' & recs' & Hrun & Hh & _ & Hperm & Hsort & Hgone & Hkept & _).
  exists w', runs', recs'. split_and!; [done|done|by apply Hsort|done..].
Qed.

(** ** The counting pass and the merge on sorted runs *)

Lemma _open_runs_log run_paths cs w :
  holds (files w) run_paths cs →
  _open_runs run_paths w =
  (Ok cs, World (files w) (reverse run_paths ++ opened w) (stdout w)).
Proof.
  intros Hh. revert cs w Hh. unfold holds.
  induction run_paths as [|p run_paths IH]; intros cs w Hh.
  - apply Forall2_nil_inv_l in Hh as ->. by destruct w.
  - apply Forall2_cons_inv_l in Hh as (c & cs' & Hp & Hh & ->).
    cbn [_open_runs]. unfold bind at 1, open_rb. rewrite Hp.
    rewrite (bind_Ok _ _ _ _ _
               (IH cs' (World (files w) (p :: opened w) (stdout w)) Hh)).
    unfold ret. simpl. by rewrite reverse_cons, <-app_assoc.
Qed.

Lemma merged_is_sort (recs : list (list bytes)) :
  record_sized recs → Forall (StronglySorted lexle) recs →
  merged (flat <$> recs) = merge_sort lexle (mjoin recs).
Proof.
  intros Hsz Hs. apply (StronglySorted_unique lexle).
  - by apply merged_batch_sorted.
  - apply sort_sorted.
  - by rewrite merged_batch_perm, merge_sort_Permutation.
Qed.

(** X8. Over sorted runs of 16-byte records the counting pass returns the
    number of distinct records of all the runs together. It opens every
    run once, in the order of the list, and changes no file. *)
Theorem count_unique_across_runs_correct run_paths recs w :
  holds (files w) run_paths (flat <$> recs) →
  record_sized recs →
  Forall (StronglySorted lexle) recs →
  count_unique_across_runs run_paths w =
  (Ok (distinct_count (mjoin recs)),
   World (files w) (reverse run_paths ++ opened w) (stdout w)).
Proof.
  intros Hh Hsz Hs. unfold count_unique_across_runs. case_bool_decide as Hnil.
  - subst. apply Forall2_nil_inv_l in Hh. apply fmap_nil_inv in Hh as ->.
    by destruct w.
  - rewrite (bind_Ok _ _ _ _ _ (_open_runs_log _ _ _ Hh)). unfold bind, lift, ret.
    rewrite kway_merged, count_step_sorted by (by apply merged_batch_sorted).
    by rewrite (distinct_count_perm _ (mjoin recs)) by (by apply merged_batch_perm).
Qed.

Lemma count_step_le (l : list bytes) st :
  (foldl count_step st l).2 ≤ st.2 + length l.
Proof.
  revert st. induction l as [|x l IH]; intros [prev u]; simpl; [lia|].
  case_bool_decide; etrans; [apply IH| |apply IH|]; simpl; lia.
Qed.

Lemma count_step_ge (l : list bytes) p u :
  length (remove_dups (p :: l)) + u ≤ S (foldl count_step (Some p, u) l).2.
Proof.
  revert p u. induction l as [|x l IH]; intros p u; [simpl; lia|].
  cbn [foldl count_step]. case_bool_decide as Hne.
  - specialize (IH x (S u)). rewrite (remove_dups_cons p).
    case_decide; simpl in *; lia.
  - assert (p = x) as <-.
    { congruence. }
    specialize (IH p u).
    by rewrite (remove_dups_cons p (p :: l)), decide_True by left.
Qed.

(** X9. Whatever the run files hold, sorted or not, whole records or not,
    the counting pass returns a number that is at least the number of
    distinct records that reading the files yields and at most the number
    of those records: it never counts too few. *)
Theorem count_unique_across_runs_bounds run_paths cs w :
  holds (files w) run_paths cs →
  ∃ n,
    (count_unique_across_runs run_paths w).1 = Ok n ∧
    distinct_count (mjoin (records <$> cs)) ≤ n ∧
    n ≤ length (mjoin (records <$> cs)).
Proof.
  intros Hh.
  destruct (count_unique_across_runs_ok run_paths cs w Hh) as (w' & -> & _).
  eexists. split; [done|].
  rewrite <-(distinct_count_perm _ _ (merged_perm cs)), <-(merged_perm cs).
  split.
  - rewrite distinct_count_remove_dups.
    destruct (merged cs) as [|x l]; [done|].
    cbn [foldl count_step]. rewrite bool_decide_true by done.
    pose proof (count_step_ge l x 1). lia.
  - pose proof (count_step_le (merged cs) (None, 0)). done.
Qed.

(** X10. Merging sorted runs of 16-byte records writes one definite file,
    the same for every heap that keeps the contract of [heapq]: all the
    records of the inputs in ascending order. No other file changes, and
    nothing is printed. *)
Theorem merge_runs_to_file_sorts run_paths out_path recs w :
  holds (files w) run_paths (flat <$> recs) →
  record_sized recs →
  Forall (StronglySorted lexle) recs →
  out_path ∉ run_paths →
  ∃ w',
    merge_runs_to_file run_paths out_path w = (Ok tt, w') ∧
    files w' = <[out_path := flat (merge_sort lexle (mjoin recs))]> (files w) ∧
    stdout w' = stdout w.
Proof.
  intros Hh Hsz Hs _.
  destruct (merge_runs_to_file_ok run_paths out_path _ w Hh) as (w' & Hrun & Hf & Ho).
  exists w'. by rewrite <-merged_is_sort.
Qed.

(** X11. Reducing does not change the count. Over a run set of sorted
    runs, with a fan-in of at least 2 and enough passes, the counting
    pass over the runs that the reducer returns gives what it gives over
    the runs as they were: the number of distinct records. *)
Theorem reduce_runs_keeps_the_count fuel tmp_dir fan_in runs recs w :
  (2 ≤ fan_in)%Z →
  run_set tmp_dir 0 w runs recs →
  Forall (StronglySorted lexle) recs →
  length runs ≤ Z.to_nat fan_in ^ S fuel →
  ((runs' <- reduce_runs fuel runs tmp_dir fan_in ;;
    count_unique_across_runs runs') w).1 = Ok (distinct_count (mjoin recs)) ∧
  (count_unique_across_runs runs w).1 = Ok (distinct_count (mjoin recs)).
Proof.
  intros Hfan Hset Hs Hlen.
  assert (∀ runs0 recs0 w0,
            holds (files w0) runs0 (flat <$> recs0) → record_sized recs0 →
            Forall (StronglySorted lexle) recs0 →
            (count_unique_across_runs runs0 w0).1 =
            Ok (distinct_count (mjoin recs0))) as Hcount.
  { intros runs0 recs0 w0 Hh Hsz Hs0.
    destruct (count_unique_across_runs_ok runs0 _ w0 Hh) as (w1 & -> & _).
    cbn [fst]. rewrite count_step_sorted by (by apply merged_batch_sorted).
    by rewrite (distinct_count_perm _ (mjoin recs0))
      by (by apply merged_batch_perm). }
  split; [|apply Hcount; [apply Hset|apply Hset|done]].
  destruct (reduce_loop_total tmp_dir fan_in fuel 0 runs recs w Hfan Hset Hlen)
    as (w' & runs' & recs' & Hrun & Hh & Hsz & Hperm & Hsort & _).
  unfold reduce_runs. rewrite (bind_Ok _ _ _ _ _ Hrun).
  rewrite (Hcount runs' recs' w' Hh Hsz (Hsort Hs)).
  by rewrite (distinct_count_perm _ _ Hperm).
Qed.

(** ** The disk after a run of the pipeline *)

Lemma rmtree_restores d (fs fs' : gmap string bytes) :
  (∀ q, in_dir d q = true → fs !! q = None) →
  (∀ q, in_dir d q = false → fs' !! q = fs !! q) →
  filter (λ kv, in_dir d kv.1 = false) fs' = fs.
Proof.
  intros Hfresh Hsame. apply map_eq. intros q. destruct (in_dir d q) eqn:Hq.
  - rewrite rmtree_inside by done. symmetry. by apply Hfresh.
  - rewrite rmtree_outside by done. by apply Hsame.
Qed.

Lemma sorted_batches_perm (batches : list (list bytes)) :
  mjoin (merge_sort lexle <$> batches) ≡ₚ mjoin batches.
Proof.
  induction batches as [|b batches IH]; [done|].
  by rewrite fmap_cons, !mjoin_cons, IH, merge_sort_Permutation.
Qed.

Section run_facts.
Context (inet_pton6 : string → exn + bytes).

Lemma try_block_frame fuel tmp_dir input_path output_path chunk_records fan_in
    w q :
  in_dir tmp_dir q = false →
  files (try_block inet_pton6 fuel tmp_dir input_path output_path
           chunk_records fan_in w).2 !! q =
  match (try_block inet_pton6 fuel tmp_dir input_path output_path
           chunk_records fan_in w).1 with
  | Ok n => <[output_path := count_line n]> (files w) !! q
  | _ => files w !! q
  end.
Proof.
  intros Hq. unfold try_block, reduce_runs, bind.
  destruct (confined_generate_initial_runs inet_pton6 tmp_dir input_path
              chunk_records w) as [Ht1 Hq1].
  destruct (generate_initial_runs _ _ _ _ w) as [[runs| |] w1]; simpl in *;
    [|by apply Ht1..].
  destruct (confined_reduce_loop tmp_dir fan_in fuel 0 runs (Hq1 _ eq_refl) w1)
    as [Ht2 _].
  destruct (reduce_loop _ _ _ _ _ w1) as [[runs'| |] w2]; simpl in *;
    [|by rewrite Ht2, Ht1..].
  destruct (confined_count_unique_across_runs tmp_dir runs' w2) as [Ht3 _].
  destruct (count_unique_across_runs _ w2) as [[ans| |] w3]; simpl in *;
    [|by rewrite Ht3, Ht2, Ht1..].
  unfold count_line. destruct (decide (q = output_path)) as [->|Hne].
  - by rewrite !lookup_insert_eq.
  - rewrite !lookup_insert_ne by done. by rewrite Ht3, Ht2, Ht1.
Qed.

(** X12. Run in a directory that [mkdtemp] has just made, with [keep_tmp]
    unset and an output path outside that directory, the pipeline leaves
    the disk as it found it but for the output file: when it returns the
    count [n], the disk is the one before the call with the output file
    holding [n] and a line feed; when it raises, the disk is exactly the
    one before the call. *)
Theorem disk_after_run fuel tmp_dir input_path output_path chunk_records
    fan_in w :
  fresh_dir tmp_dir w →
  in_dir tmp_dir output_path = false →
  match (count_unique_ipv6_external inet_pton6 fuel tmp_dir input_path
           output_path chunk_records fan_in false w).1 with
  | Ok n =>
      files (count_unique_ipv6_external inet_pton6 fuel tmp_dir input_path
               output_path chunk_records fan_in false w).2 =
      <[output_path := list_byte_of_string (str n +:+ LF)]> (files w)
  | Raise _ =>
      files (count_unique_ipv6_external inet_pton6 fuel tmp_dir input_path
               output_path chunk_records fan_in false w).2 = files w
  | Timeout => True
  end.
Proof.
  intros Hfresh Hout.
  pose proof (try_block_frame fuel tmp_dir input_path output_path
                chunk_records fan_in w) as Hframe.
  unfold count_unique_ipv6_external, try_finally.
  destruct (try_block _ _ _ _ _ _ _ w) as [[n|e|] w1]; simpl in *; [| |done].
  - apply rmtree_restores; [|done]. intros q Hq.
    rewrite lookup_insert_ne by (intros <-; congruence). by apply Hfresh.
  - by apply rmtree_restores.
Qed.

(** X13. Whatever the input holds, whatever the parameters are and
    however the run ends, an exception and a reducer that never ends
    included, the pipeline changes no file outside the temporary
    directory other than the output file: the input file and every other
    file of the user are as they were. *)
Theorem pipeline_touches_nothing_else fuel tmp_dir input_path output_path
    chunk_records fan_in keep_tmp w q :
  in_dir tmp_dir q = false →
  q ≠ output_path →
  files (count_unique_ipv6_external inet_pton6 fuel tmp_dir input_path
           output_path chunk_records fan_in keep_tmp w).2 !! q =
  files w !! q.
Proof.
  intros Hq Hne.
  pose proof (try_block_frame fuel tmp_dir input_path output_path
                chunk_records fan_in w q Hq) as Hframe.
  unfold count_unique_ipv6_external, try_finally.
  destruct (try_block _ _ _ _ _ _ _ w) as [[n|e|] w1]; simpl in *;
    rewrite ?lookup_insert_ne in Hframe by done; [| |done];
    destruct keep_tmp; simpl; rewrite ?rmtree_outside by done; done.
Qed.

(** X14. When the input file does not exist, the builder raises
    [FileNotFoundError] for the input path before it writes anything, the
    pipeline raises the same exception, whatever [keep_tmp] is, and no
    file outside the temporary directory changes: no output file is
    made. *)
Theorem missing_input_raises fuel tmp_dir input_path output_path
    chunk_records fan_in keep_tmp w :
  files w !! input_path = None →
  generate_initial_runs inet_pton6 input_path tmp_dir chunk_records w =
    (Raise (FileNotFoundError input_path), w) ∧
  (count_unique_ipv6_external inet_pton6 fuel tmp_dir input_path output_path
     chunk_records fan_in keep_tmp w).1 = Raise (FileNotFoundError input_path) ∧
  ∀ q, in_dir tmp_dir q = false →
    files (count_unique_ipv6_external inet_pton6 fuel tmp_dir input_path
             output_path chunk_records fan_in keep_tmp w).2 !! q =
    files w !! q.
Proof.
  intros Hin.
  assert (generate_initial_runs inet_pton6 input_path tmp_dir chunk_records w =
          (Raise (FileNotFoundError input_path), w)) as Hgen.
  { unfold generate_initial_runs, read_text_lines, bind, open_rb. by rewrite Hin. }
  split; [done|].
  unfold count_unique_ipv6_external, try_finally, try_block.
  rewrite (bind_Raise _ _ _ _ _ Hgen).
  destruct keep_tmp; simpl; (split; [done|]); [done|].
  intros q Hq. by apply rmtree_outside.
Qed.

Hypothesis inet_pton6_length :
  ∀ s packed, inet_pton6 s = inr packed → length packed = RECORD_SIZE.

Lemma encode_lines_sized lines keys :
  encode_lines inet_pton6 lines = inr keys →
  Forall (λ r, length r = RECORD_SIZE) keys.
Proof.
  revert keys. induction lines as [|line lines IH]; intros keys; simpl.
  - intros [= <-]. constructor.
  - case_bool_decide; [apply IH|].
    destruct (inet_pton6 _) eqn:Henc; [done|].
    destruct (encode_lines _ _); [done|].
    intros [= <-]. constructor; [by eapply inet_pton6_length|by apply IH].
Qed.

Lemma try_block_total fuel tmp_dir input_path output_path chunk_records fan_in
    w lines keys :
  input_lines w input_path = Some lines →
  encode_lines inet_pton6 lines = inr keys →
  (2 ≤ fan_in)%Z →
  length (chunks (Z.to_nat (Z.max 1 chunk_records)) keys) ≤
    Z.to_nat fan_in ^ S fuel →
  (try_block inet_pton6 fuel tmp_dir input_path output_path chunk_records
     fan_in w).1 = Ok (distinct_count keys).
Proof.
  intros Hlines Hkeys Hfan Hfuel. unfold try_block.
  destruct (generate_initial_runs_exact inet_pton6 w input_path tmp_dir
              chunk_records lines keys Hlines Hkeys)
    as (w1 & Hgen & Hh & _).
  set (size := Z.to_nat (Z.max 1 chunk_records)) in *.
  assert (0 < size) as Hsize by lia.
  rewrite (bind_Ok _ _ _ _ _ Hgen).
  destruct (reduce_loop_total tmp_dir fan_in fuel 0
              (run_path tmp_dir <$> seq 0 (length (chunks size keys)))
              (merge_sort lexle <$> chunks size keys) w1 Hfan)
    as (w2 & runs & recs' & Hred & Hh' & Hsz' & Hperm' & Hs' & _).
  { split; [done|apply run_paths_NoDup| |apply run_paths_no_clash].
    unfold record_sized. rewrite Forall_fmap.
    eapply Forall_impl;
      [apply (Forall_chunks _ size keys Hsize (encode_lines_sized _ _ Hkeys))|].
    intros b Hb. simpl. by rewrite merge_sort_Permutation. }
  { by rewrite length_fmap, length_seq. }
  unfold reduce_runs. rewrite (bind_Ok _ _ _ _ _ Hred).
  destruct (count_unique_across_runs_ok runs _ w2 Hh') as (w3 & Hcount & _).
  rewrite (bind_Ok _ _ _ _ _ Hcount).
  rewrite count_step_sorted.
  - rewrite (distinct_count_perm _ keys); [done|].
    rewrite merged_batch_perm, Hperm', sorted_batches_perm by done.
    by rewrite mjoin_chunks.
  - apply merged_batch_sorted; [done|]. apply Hs'.
    rewrite Forall_fmap. apply Forall_forall. intros b _. apply sort_sorted.
Qed.

(** X15. [main] runs the pipeline on the two paths of the command line
    with batches of 1,000,000 keys, a fan-in of 128 and [keep_tmp] unset.
    For an input whose lines all encode, to at most
    [1000000 * 128 ^ (k + 1)] keys, it returns within [k] passes of the
    reducer, and the disk is then the one before the call with the output
    file holding the number of distinct keys and a line feed. *)
Theorem main_writes_the_count fuel tmp_dir args w lines keys :
  input_lines w (input_path args) = Some lines →
  encode_lines inet_pton6 lines = inr keys →
  fresh_dir tmp_dir w →
  in_dir tmp_dir (output_path args) = false →
  (Z.of_nat (length keys) ≤ 1000000 * 128 ^ Z.of_nat (S fuel))%Z →
  ∃ w',
    main inet_pton6 fuel tmp_dir args w = (Ok tt, w') ∧
    files w' =
      <[output_path args := count_line (distinct_count keys)]> (files w).
Proof.
  intros Hlines Hkeys Hfresh Hout Hsize.
  pose proof (try_block_frame fuel tmp_dir (input_path args) (output_path args)
                1000000 128 w) as Hframe.
  assert ((try_block inet_pton6 fuel tmp_dir (input_path args) (output_path args)
             1000000 128 w).1 = Ok (distinct_count keys)) as Htotal.
  { apply (try_block_total fuel tmp_dir (input_path args) (output_path args)
             1000000 128 w lines keys Hlines Hkeys); [lia|].
    apply chunks_length_bound; [lia|].
    apply Nat2Z.inj_le. rewrite Nat2Z.inj_mul, Nat2Z.inj_pow.
    rewrite !Z2Nat.id by lia. lia. }
  unfold main, count_unique_ipv6_external, try_finally, bind.
  destruct (try_block _ _ _ _ _ _ _ w) as [r w1]. cbn [fst snd] in *.
  subst r. eexists. split; [done|]. cbn [files rmtree].
  apply rmtree_restores; [|done]. intros q Hq.
  rewrite lookup_insert_ne by (intros <-; congruence). by apply Hfresh.
Qed.
End run_facts.

End with_heapq.

(** ** The claims on the sample inputs *)

Lemma sample_inet_pton6_length s packed :
  sample_inet_pton6 s = inr packed → length packed = RECORD_SIZE.
Proof.
  unfold sample_inet_pton6. destruct (mapM _ _) as [groups|]; [|done].
  case_bool_decide as Hlen; [|done]. intros [= <-].
  assert (∀ gs : list N, length (mjoin (group_bytes <$> gs)) = 2 * length gs) as Hgs.
  { induction gs as [|g gs IH]; [done|]. rewrite fmap_cons, mjoin_cons, length_app, IH.
    simpl. lia. }
  by rewrite Hgs, Hlen.
Qed.

Lemma count_unique_ipv6_external_correct_witness :
  (count_unique_ipv6_external sample_inet_pton6 4 sample_dir "in.txt" "out.txt"
     2 2 false sample_world).1 =
  Ok (distinct_count
        [sample_key x01; sample_key x03; sample_key x01; sample_key x02]) ∧
  ∀ keys',
    (∀ k, k ∈ keys' ↔
          k ∈ [sample_key x01; sample_key x03; sample_key x01; sample_key x02]) →
    distinct_count keys' =
    distinct_count
      [sample_key x01; sample_key x03; sample_key x01; sample_key x02].
Proof.
  eapply (count_unique_ipv6_external_correct sample_inet_pton6
            sample_inet_pton6_length 4 sample_dir "in.txt" "out.txt" 2 2 false
            sample_world).
  - vm_compute. reflexivity.
  - vm_compute. reflexivity.
  - lia.
  - simpl. lia.
Defined.

Lemma merge_runs_to_file_correct_witness :
  ∃ w' out,
    merge_runs_to_file (run_path sample_dir <$> seq 0 3)
      (merge_path sample_dir 0 0) three_runs = (Ok tt, w') ∧
    files w' !! merge_path sample_dir 0 0 = Some (flat out) ∧
    records (flat out) = out ∧
    out ≡ₚ mjoin [[sample_key x01]; [sample_key x03]; [sample_key x02]] ∧
    length out =
      sum_list (length <$> [[sample_key x01]; [sample_key x03]; [sample_key x02]]) ∧
    (Forall (StronglySorted lexle)
       [[sample_key x01]; [sample_key x03]; [sample_key x02]] →
     StronglySorted lexle out).
Proof.
  apply (merge_runs_to_file_correct (run_path sample_dir <$> seq 0 3)
           (merge_path sample_dir 0 0)
           [[sample_key x01]; [sample_key x03]; [sample_key x02]] three_runs).
  - apply three_runs_run_set.
  - apply three_runs_run_set.
  - intros (i & E & _)%list_elem_of_fmap. by apply eq_sym, run_path_merge_path in E.
Defined.

Lemma reduce_runs_invariants_witness :
  (∃ w' runs' recs',
     reduce_pass (run_path sample_dir <$> seq 0 3) sample_dir 2 0 three_runs =
       (Ok runs', w') ∧
     run_set sample_dir 1 w' runs' recs' ∧
     mjoin recs' ≡ₚ mjoin [[sample_key x01]; [sample_key x03]; [sample_key x02]] ∧
     length runs' ≤ length (run_path sample_dir <$> seq 0 3)) ∧
  (∀ fuel runs' w',
     reduce_loop fuel (run_path sample_dir <$> seq 0 3) sample_dir 2 0 three_runs =
       (Ok runs', w') →
     (Z.of_nat (length runs') ≤ 2)%Z ∧
     length runs' ≤ length (run_path sample_dir <$> seq 0 3) ∧
     ∃ level' recs',
       run_set sample_dir level' w' runs' recs' ∧
       mjoin recs' ≡ₚ mjoin [[sample_key x01]; [sample_key x03]; [sample_key x02]]).
Proof.
  apply (reduce_runs_invariants sample_dir 2 0 (run_path sample_dir <$> seq 0 3)
           [[sample_key x01]; [sample_key x03]; [sample_key x02]] three_runs).
  - lia.
  - apply three_runs_run_set.
Defined.

(** The claim C5 fails on a run file of 17 bytes: the counting pass
    returns 2 and the merge succeeds. *)
Lemma truncated_run_is_not_rejected :
  holds (files truncated_run) [run_path sample_dir 0] [sample_key x01 ++ [x07]] ∧
  length (sample_key x01 ++ [x07]) `mod` RECORD_SIZE = 1 ∧
  (count_unique_across_runs [run_path sample_dir 0] truncated_run).1 = Ok 2 ∧
  (merge_runs_to_file [run_path sample_dir 0] (merge_path sample_dir 0 0)
     truncated_run).1 = Ok tt.
Proof. split_and!; [repeat constructor|done..]. Qed.

Lemma truncated_run_is_read_witness :
  ∃ out,
    out ≡ₚ mjoin (records <$> [sample_key x01 ++ [x07]]) ∧
    (count_unique_across_runs [run_path sample_dir 0] truncated_run).1 =
      Ok (foldl count_step (None, 0) out).2 ∧
    (merge_runs_to_file [run_path sample_dir 0] (merge_path sample_dir 0 0)
       truncated_run).1 = Ok tt ∧
    files (merge_runs_to_file [run_path sample_dir 0]
             (merge_path sample_dir 0 0) truncated_run).2
      !! merge_path sample_dir 0 0 = Some (flat out) ∧
    ∀ c, c ∈ [sample_key x01 ++ [x07]] → length c `mod` RECORD_SIZE ≠ 0 →
      ∃ r, r ∈ out ∧ last (records c) = Some r ∧
           length r = length c `mod` RECORD_SIZE.
Proof.
  apply (truncated_run_is_read [run_path sample_dir 0]
           (merge_path sample_dir 0 0) [sample_key x01 ++ [x07]] truncated_run).
  - repeat constructor.
  - intros [E|[]%elem_of_nil]%elem_of_cons. by apply eq_sym, run_path_merge_path in E.
Defined.

(** ** The error of the encoder names no line *)

(** The claim C6 fails on the sample encoder: an input whose first line
    does not encode and one whose second line does not make the pipeline
    raise the same exception, so that no line number can be read off
    it. *)
Lemma error_names_no_line :
  ¬ ∃ locate : exn → nat,
      ∀ w lines n,
        input_lines w "in.txt" = Some lines →
        first_bad_line sample_inet_pton6 lines 1 = Some n →
        ∃ e,
          (count_unique_ipv6_external sample_inet_pton6 4 sample_dir "in.txt"
             "out.txt" 2 2 false w).1 = Raise e ∧
          locate e = n.
Proof.
  intros [locate Hlocate].
  destruct (Hlocate bad_first_line ["zz" +:+ LF] 1) as (e1 & Hrun1 & Hline1);
    [by vm_compute..|].
  destruct (Hlocate bad_second_line ["0:0:0:0:0:0:0:1" +:+ LF; "zz" +:+ LF] 2)
    as (e2 & Hrun2 & Hline2); [by vm_compute..|].
  vm_compute in Hrun1, Hrun2. injection Hrun1 as <-. injection Hrun2 as <-.
  congruence.
Qed.

Lemma encoding_error_propagates_witness :
  (generate_initial_runs sample_inet_pton6 "in.txt" sample_dir 2
     bad_second_line).1 = Raise illegal_address ∧
  (count_unique_ipv6_external sample_inet_pton6 4 sample_dir "in.txt"
     "out.txt" 2 2 false bad_second_line).1 = Raise illegal_address ∧
  files (count_unique_ipv6_external sample_inet_pton6 4 sample_dir "in.txt"
           "out.txt" 2 2 false bad_second_line).2 !! "out.txt" =
    files bad_second_line !! "out.txt".
Proof.
  apply (encoding_error_propagates sample_inet_pton6 4 sample_dir "in.txt"
           "out.txt" 2 2 false bad_second_line
           ["0:0:0:0:0:0:0:1" +:+ LF; "zz" +:+ LF] 1 ("zz" +:+ LF)
           illegal_address); by vm_compute.
Defined.

(** ** The other claims on the sample inputs *)

Lemma empty_input_counts_zero_witness :
  generate_initial_runs sample_inet_pton6 "in.txt" sample_dir 2 empty_input =
    (Ok [], World (files empty_input) ("in.txt" :: opened empty_input)
              (stdout empty_input)) ∧
  (∀ w', count_unique_across_runs [] w' = (Ok 0, w')) ∧
  (count_unique_ipv6_external sample_inet_pton6 4 sample_dir "in.txt" "out.txt"
     2 2 false empty_input).1 = Ok 0.
Proof.
  apply (empty_input_counts_zero sample_inet_pton6 4 sample_dir "in.txt"
           "out.txt" 2 2 false empty_input).
  - by vm_compute.
  - lia.
Defined.

Lemma workspace_released_witness :
  files (count_unique_ipv6_external sample_inet_pton6 4 sample_dir "in.txt"
           "out.txt" 2 2 false sample_world).2 !! run_path sample_dir 0 = None.
Proof.
  apply (workspace_released sample_inet_pton6 4 sample_dir "in.txt" "out.txt"
           2 2 false sample_world); by vm_compute.
Defined.

Lemma output_all_or_nothing_witness :
  match (count_unique_ipv6_external sample_inet_pton6 4 sample_dir "in.txt"
           "out.txt" 2 2 false sample_world).1 with
  | Ok n =>
      files (count_unique_ipv6_external sample_inet_pton6 4 sample_dir "in.txt"
               "out.txt" 2 2 false sample_world).2 !! "out.txt" =
      Some (list_byte_of_string (str n +:+ LF))
  | _ =>
      files (count_unique_ipv6_external sample_inet_pton6 4 sample_dir "in.txt"
               "out.txt" 2 2 false sample_world).2 !! "out.txt" =
      files sample_world !! "out.txt"
  end.
Proof.
  apply (output_all_or_nothing sample_inet_pton6 4 sample_dir "in.txt"
           "out.txt" 2 2 false sample_world).
  by vm_compute.
Defined.

Lemma read_loop_skips_blank_lines_witness :
  read_loop sample_inet_pton6 ["  " +:+ LF; "0:0:0:0:0:0:0:1" +:+ LF] sample_dir
    2 [] [] 0 blank_lines =
  read_loop lenient_inet_pton6
    (filter (λ line, strip line ≠ "") ["  " +:+ LF; "0:0:0:0:0:0:0:1" +:+ LF])
    sample_dir 2 [] [] 0 blank_lines.
Proof.
  apply (read_loop_skips_blank_lines sample_inet_pton6 lenient_inet_pton6).
  intros s Hs. unfold lenient_inet_pton6. by rewrite bool_decide_false.
Defined.

(** ** The scenarios of the specification *)

(** Keys 1, 3, 1, 2 in batches of two with a fan-in of 2: two runs, no
    pass of the reducer, three distinct keys. *)
Example scenario_two_batches :
  (generate_initial_runs sample_inet_pton6 "in.txt" sample_dir 2 sample_world).1 =
    Ok [run_path sample_dir 0; run_path sample_dir 1] ∧
  (count_unique_ipv6_external sample_inet_pton6 0 sample_dir "in.txt" "out.txt"
     2 2 false sample_world).1 = Ok 3 ∧
  files (count_unique_ipv6_external sample_inet_pton6 0 sample_dir "in.txt"
           "out.txt" 2 2 false sample_world).2 !! "out.txt" =
    Some (text ("3" +:+ LF)).
Proof. by vm_compute. Qed.

(** Five copies of one key in batches of one with a fan-in of 2: five
    runs, which one pass of the reducer does not bring down to two, and
    one distinct key. *)
Example scenario_five_copies :
  (generate_initial_runs sample_inet_pton6 "in.txt" sample_dir 1 five_copies).1 =
    Ok (run_path sample_dir <$> seq 0 5) ∧
  (count_unique_ipv6_external sample_inet_pton6 1 sample_dir "in.txt" "out.txt"
     1 2 false five_copies).1 = Timeout ∧
  (count_unique_ipv6_external sample_inet_pton6 2 sample_dir "in.txt" "out.txt"
     1 2 false five_copies).1 = Ok 1.
Proof. by vm_compute. Qed.

(** A single record, and the sample keys of which one comes twice. *)
Example distinct_count_samples :
  distinct_count [sample_key x01] = 1 ∧
  distinct_count
    [sample_key x01; sample_key x03; sample_key x01; sample_key x02] = 3.
Proof. by vm_compute. Qed.

(** The three line endings, and what [strip] takes off. *)
Example iter_lines_endings :
  let cr := String "013"%char "" in
  iter_lines ("a" +:+ cr +:+ "b" +:+ cr +:+ LF +:+ "c" +:+ LF +:+ cr +:+
              "d" +:+ LF +:+ LF +:+ "e") "" =
  ["a" +:+ cr; "b" +:+ cr +:+ LF; "c" +:+ LF; cr; "d" +:+ LF; LF; "e"] ∧
  strip (String "028"%char " a " +:+ String "031"%char cr +:+ LF) = "a".
Proof. by vm_compute. Qed.

(** The names of the run files. *)
Example file_names :
  run_path "/tmp/w" 7 = "/tmp/w/run_000007.bin" ∧
  merge_path "/tmp/w/" 1 12 = "/tmp/w/merge_001_000012.bin" ∧
  fmt_d 3 1000 = "1000" ∧
  sample_inet_pton6 "0:0:0:0:0:0:ffff:a1B2" =
    inr (replicate 12 x00 ++ [xff; xff; xa1; xb2]) ∧
  sample_inet_pton6 "00001:0:0:0:0:0:0:1" = inl illegal_address.
Proof. by vm_compute. Qed.

(** ** The stages on the sample inputs *)

Lemma sample_world_fresh : fresh_dir sample_dir sample_world.
Proof.
  intros q Hq. destruct (decide (q = "in.txt")) as [->|Hne]; [by vm_compute in Hq|].
  unfold sample_world, disk. simpl. by rewrite lookup_insert_ne, lookup_empty.
Qed.

Lemma three_runs_sorted :
  Forall (StronglySorted lexle)
    [[sample_key x01]; [sample_key x03]; [sample_key x02]].
Proof. repeat constructor. Qed.

Lemma flush_run_round_trip_witness :
  ∃ w' c,
    flush_run [sample_key x03; sample_key x01] sample_dir 0 sample_world =
      (Ok (run_path sample_dir 0), w') ∧
    files w' !! run_path sample_dir 0 = Some c ∧
    records c ≡ₚ [sample_key x03; sample_key x01] ∧
    StronglySorted lexle (records c) ∧
    (∀ q, q ≠ run_path sample_dir 0 → files w' !! q = files sample_world !! q).
Proof.
  apply (flush_run_round_trip [sample_key x03; sample_key x01] sample_dir 0
           sample_world).
  repeat constructor.
Defined.

Lemma generate_initial_runs_chunks_witness :
  let size := Z.to_nat (Z.max 1 2) in
  let keys := [sample_key x01; sample_key x03; sample_key x01; sample_key x02] in
  ∃ w',
    generate_initial_runs sample_inet_pton6 "in.txt" sample_dir 2 sample_world =
      (Ok (run_path sample_dir <$> seq 0 (length (chunks size keys))), w') ∧
    holds (files w') (run_path sample_dir <$> seq 0 (length (chunks size keys)))
      (flat <$> (merge_sort lexle <$> chunks size keys)) ∧
    mjoin (chunks size keys) = keys ∧
    Forall (λ batch, 0 < length batch ≤ size) (chunks size keys) ∧
    (∀ q, (∀ i, q ≠ run_path sample_dir i) →
          files w' !! q = files sample_world !! q).
Proof.
  eapply (generate_initial_runs_chunks sample_inet_pton6 sample_world "in.txt"
            sample_dir 2).
  - vm_compute. reflexivity.
  - vm_compute. reflexivity.
  - vm_compute. reflexivity.
Defined.

Lemma missing_run_raises_witness :
  (_open_runs ([run_path sample_dir 0] ++ run_path sample_dir 7 :: [])
     three_runs).1 = Raise (FileNotFoundError (run_path sample_dir 7)) ∧
  (merge_runs_to_file ([run_path sample_dir 0] ++ run_path sample_dir 7 :: [])
     (merge_path sample_dir 0 0) three_runs).1 =
    Raise (FileNotFoundError (run_path sample_dir 7)) ∧
  files (merge_runs_to_file
           ([run_path sample_dir 0] ++ run_path sample_dir 7 :: [])
           (merge_path sample_dir 0 0) three_runs).2 = files three_runs ∧
  (count_unique_across_runs
     ([run_path sample_dir 0] ++ run_path sample_dir 7 :: []) three_runs).1 =
    Raise (FileNotFoundError (run_path sample_dir 7)) ∧
  files (count_unique_across_runs
           ([run_path sample_dir 0] ++ run_path sample_dir 7 :: [])
           three_runs).2 = files three_runs.
Proof.
  apply (missing_run_raises [run_path sample_dir 0] (run_path sample_dir 7) []
           (merge_path sample_dir 0 0) three_runs).
  - constructor; [by eexists|constructor].
  - by vm_compute.
Defined.

Lemma reduce_runs_fan_in_not_positive_witness :
  reduce_runs 3 (run_path sample_dir <$> seq 0 3) sample_dir 0 three_runs =
  (if bool_decide (0 = 0)%Z
   then Raise (ValueError "range() arg 3 must not be zero")
   else Timeout, three_runs).
Proof.
  apply (reduce_runs_fan_in_not_positive 2 (run_path sample_dir <$> seq 0 3)
           sample_dir 0 three_runs).
  - lia.
  - done.
Defined.

Lemma reduce_runs_passes_witness :
  (length (run_path sample_dir <$> seq 0 3) ≤ Z.to_nat 2 ^ 2 →
   ∃ runs',
     (reduce_runs 1 (run_path sample_dir <$> seq 0 3) sample_dir 2
        three_runs).1 = Ok runs') ∧
  (Z.to_nat 2 ^ 2 < length (run_path sample_dir <$> seq 0 3) →
   (reduce_runs 1 (run_path sample_dir <$> seq 0 3) sample_dir 2
      three_runs).1 = Timeout).
Proof.
  apply (reduce_runs_passes 1 sample_dir 2 (run_path sample_dir <$> seq 0 3)
           [[sample_key x01]; [sample_key x03]; [sample_key x02]] three_runs).
  - lia.
  - apply three_runs_run_set.
Defined.

Lemma reduce_runs_leaves_its_runs_witness :
  ∃ w' runs' recs',
    reduce_runs 1 (run_path sample_dir <$> seq 0 3) sample_dir 2 three_runs =
      (Ok runs', w') ∧
    holds (files w') runs' (flat <$> recs') ∧
    Forall (StronglySorted lexle) recs' ∧
    mjoin recs' ≡ₚ mjoin [[sample_key x01]; [sample_key x03]; [sample_key x02]] ∧
    (∀ p, p ∈ run_path sample_dir <$> seq 0 3 → p ∉ runs' →
          files w' !! p = None) ∧
    (∀ q c, files w' !! q = Some c →
            q ∈ runs' ∨ files three_runs !! q = Some c).
Proof.
  apply (reduce_runs_leaves_its_runs 1 sample_dir 2
           (run_path sample_dir <$> seq 0 3)
           [[sample_key x01]; [sample_key x03]; [sample_key x02]] three_runs).
  - lia.
  - apply three_runs_run_set.
  - apply three_runs_sorted.
  - vm_compute. lia.
Defined.

Lemma count_unique_across_runs_correct_witness :
  count_unique_across_runs (run_path sample_dir <$> seq 0 3) three_runs =
  (Ok (distinct_count
         (mjoin [[sample_key x01]; [sample_key x03]; [sample_key x02]])),
   World (files three_runs)
     (reverse (run_path sample_dir <$> seq 0 3) ++ opened three_runs)
     (stdout three_runs)).
Proof.
  apply (count_unique_across_runs_correct (run_path sample_dir <$> seq 0 3)
           [[sample_key x01]; [sample_key x03]; [sample_key x02]] three_runs).
  - apply three_runs_run_set.
  - apply three_runs_run_set.
  - apply three_runs_sorted.
Defined.

Lemma count_unique_across_runs_bounds_witness :
  ∃ n,
    (count_unique_across_runs [run_path sample_dir 0] truncated_run).1 = Ok n ∧
    distinct_count (mjoin (records <$> [sample_key x01 ++ [x07]])) ≤ n ∧
    n ≤ length (mjoin (records <$> [sample_key x01 ++ [x07]])).
Proof.
  apply (count_unique_across_runs_bounds [run_path sample_dir 0]
           [sample_key x01 ++ [x07]] truncated_run).
  repeat constructor.
Defined.

Lemma merge_runs_to_file_sorts_witness :
  ∃ w',
    merge_runs_to_file (run_path sample_dir <$> seq 0 3)
      (merge_path sample_dir 0 0) three_runs = (Ok tt, w') ∧
    files w' =
      <[merge_path sample_dir 0 0 :=
          flat (merge_sort lexle
                  (mjoin [[sample_key x01]; [sample_key x03]; [sample_key x02]]))]>
        (files three_runs) ∧
    stdout w' = stdout three_runs.
Proof.
  apply (merge_runs_to_file_sorts (run_path sample_dir <$> seq 0 3)
           (merge_path sample_dir 0 0)
           [[sample_key x01]; [sample_key x03]; [sample_key x02]] three_runs).
  - apply three_runs_run_set.
  - apply three_runs_run_set.
  - apply three_runs_sorted.
  - intros (i & E & _)%list_elem_of_fmap. by apply eq_sym, run_path_merge_path in E.
Defined.

Lemma reduce_runs_keeps_the_count_witness :
  ((runs' <- reduce_runs 1 (run_path sample_dir <$> seq 0 3) sample_dir 2 ;;
    count_unique_across_runs runs') three_runs).1 =
    Ok (distinct_count
          (mjoin [[sample_key x01]; [sample_key x03]; [sample_key x02]])) ∧
  (count_unique_across_runs (run_path sample_dir <$> seq 0 3) three_runs).1 =
    Ok (distinct_count
          (mjoin [[sample_key x01]; [sample_key x03]; [sample_key x02]])).
Proof.
  apply (reduce_runs_keeps_the_count 1 sample_dir 2
           (run_path sample_dir <$> seq 0 3)
           [[sample_key x01]; [sample_key x03]; [sample_key x02]] three_runs).
  - lia.
  - apply three_runs_run_set.
  - apply three_runs_sorted.
  - vm_compute. lia.
Defined.

Lemma disk_after_run_witness :
  match (count_unique_ipv6_external sample_inet_pton6 4 sample_dir "in.txt"
           "out.txt" 2 2 false sample_world).1 with
  | Ok n =>
      files (count_unique_ipv6_external sample_inet_pton6 4 sample_dir "in.txt"
               "out.txt" 2 2 false sample_world).2 =
      <["out.txt" := list_byte_of_string (str n +:+ LF)]> (files sample_world)
  | Raise _ =>
      files (count_unique_ipv6_external sample_inet_pton6 4 sample_dir "in.txt"
               "out.txt" 2 2 false sample_world).2 = files sample_world
  | Timeout => True
  end.
Proof.
  apply (disk_after_run sample_inet_pton6 4 sample_dir "in.txt" "out.txt" 2 2
           sample_world).
  - apply sample_world_fresh.
  - by vm_compute.
Defined.

Lemma missing_input_raises_witness :
  generate_initial_runs sample_inet_pton6 "in.txt" sample_dir 2 three_runs =
    (Raise (FileNotFoundError "in.txt"), three_runs) ∧
  (count_unique_ipv6_external sample_inet_pton6 4 sample_dir "in.txt" "out.txt"
     2 2 false three_runs).1 = Raise (FileNotFoundError "in.txt") ∧
  ∀ q, in_dir sample_dir q = false →
    files (count_unique_ipv6_external sample_inet_pton6 4 sample_dir "in.txt"
             "out.txt" 2 2 false three_runs).2 !! q =
    files three_runs !! q.
Proof.
  apply (missing_input_raises sample_inet_pton6 4 sample_dir "in.txt" "out.txt"
           2 2 false three_runs).
  by vm_compute.
Defined.

Lemma pipeline_touches_nothing_else_witness :
  files (count_unique_ipv6_external sample_inet_pton6 4 sample_dir "in.txt"
           "out.txt" 2 2 false sample_world).2 !! "in.txt" =
  files sample_world !! "in.txt".
Proof.
  apply (pipeline_touches_nothing_else sample_inet_pton6 4 sample_dir "in.txt"
           "out.txt" 2 2 false sample_world "in.txt").
  - by vm_compute.
  - done.
Defined.

Lemma main_writes_the_count_witness :
  ∃ w',
    main sample_inet_pton6 0 sample_dir
      {| input_path := "in.txt"; output_path := "out.txt" |} sample_world =
      (Ok tt, w') ∧
    files w' =
      <[output_path {| input_path := "in.txt"; output_path := "out.txt" |} :=
          count_line
            (distinct_count
               [sample_key x01; sample_key x03; sample_key x01; sample_key x02])]>
        (files sample_world).
Proof.
  eapply (main_writes_the_count sample_inet_pton6 sample_inet_pton6_length 0
            sample_dir {| input_path := "in.txt"; output_path := "out.txt" |}
            sample_world).
  - vm_compute. reflexivity.
  - vm_compute. reflexivity.
  - apply sample_world_fresh.
  - by vm_compute.
  - simpl. lia.
Defined.
